(** * Two-phase non-maximum suppression (d3d/box/nms_cuda.cu)

    A shallow embedding of the three layers of [nms_cuda.cu]:
    the pairwise overlap kernel [nms2d_iou_kernel], the sequential
    reduction [nms_collect_kernel], and the host entry points
    [nms2d_cuda_templated] / [nms2d_cuda].

    Conventions.
    - [bitvec_t] ([int64_t]) is an integer in [Z]; the conversions between
      the signed word and the unsigned [1ULL << k] operand are written out
      ([to_u64], [to_i64]).
    - [scalar_t] (float or double after dispatch) is modelled by exact
      rationals [Q]; [pow] and [exp] of the C math library and the IoU of
      [d3d/box/utils.cuh] are section variables.  The rationals do not
      round and have no infinity and no NaN, so a statement about the
      value of a score is made under hypotheses that keep the factors of
      the source finite (see [unit_decay]).
    - tensors are lists (rows of lists for rank 2).  An index outside a
      tensor reads a default and a write there is dropped; the source has
      no defined behaviour there.
    - [int] counters and indices are natural numbers: they stay below the
      number of shapes plus [FLAG_WIDTH]. *)

From Stdlib Require Import ZArith QArith Qminmax Lia Lqa Permutation Sorted.
From stdpp Require Import base list sorting.

Local Open Scope nat_scope.

(** ** Machine words *)

Module Word.

Definition bitvec_t := Z.

(** [constexpr int FLAG_BITS = 6; FLAG_WIDTH = 1 << FLAG_BITS] *)
Definition FLAG_BITS : nat := 6.
Definition FLAG_WIDTH : nat := Nat.shiftl 1 FLAG_BITS.

(** Conversion of a signed word to [unsigned long long]. *)
Definition to_u64 (z : Z) : Z := (z mod 2 ^ 64)%Z.

(** Conversion back to [int64_t] (two's complement wrap-around). *)
Definition to_i64 (z : Z) : Z := ((z + 2 ^ 63) mod 2 ^ 64 - 2 ^ 63)%Z.

(** [1ULL << k] *)
Definition bit (k : nat) : Z := Z.shiftl 1 (Z.of_nat k).

(** [w & (1ULL << k)] used as a condition. *)
Definition test_bit (w : bitvec_t) (k : nat) : bool :=
  negb (Z.land (to_u64 w) (bit k) =? 0)%Z.

(** [w |= 1ULL << k] *)
Definition set_bit (w : bitvec_t) (k : nat) : bitvec_t :=
  to_i64 (Z.lor (to_u64 w) (bit k)).

(** [i >> FLAG_BITS] and [i & (FLAG_WIDTH - 1)] *)
Definition block_of (i : nat) : nat := Nat.shiftr i FLAG_BITS.
Definition lane_of (i : nat) : nat := Nat.land i (FLAG_WIDTH - 1).

Lemma FLAG_WIDTH_eq : FLAG_WIDTH = 64.
Proof. reflexivity. Qed.

Lemma block_of_div i : block_of i = i / 64.
Proof. unfold block_of, FLAG_BITS. by rewrite Nat.shiftr_div_pow2. Qed.

Lemma lane_of_mod i : lane_of i = i mod 64.
Proof.
  unfold lane_of. change (FLAG_WIDTH - 1) with (Nat.ones 6).
  by rewrite Nat.land_ones.
Qed.

Lemma shiftl_mul k : Nat.shiftl k FLAG_BITS = k * 64.
Proof. unfold FLAG_BITS. by rewrite Nat.shiftl_mul_pow2. Qed.

Lemma to_i64_mod z : (to_i64 z mod 2 ^ 64 = z mod 2 ^ 64)%Z.
Proof.
  unfold to_i64.
  rewrite Zminus_mod, Zmod_mod, <- Zminus_mod.
  f_equal. lia.
Qed.

Lemma to_i64_range z : (- 2 ^ 63 <= to_i64 z < 2 ^ 63)%Z.
Proof.
  unfold to_i64.
  pose proof (Z.mod_pos_bound (z + 2 ^ 63) (2 ^ 64)) as H. lia.
Qed.

Lemma testbit_to_u64 z k :
  k < 64 -> Z.testbit (to_u64 z) (Z.of_nat k) = Z.testbit z (Z.of_nat k).
Proof. intros Hk. unfold to_u64. apply Z.mod_pow2_bits_low. lia. Qed.

Lemma testbit_to_i64 z k :
  k < 64 -> Z.testbit (to_i64 z) (Z.of_nat k) = Z.testbit z (Z.of_nat k).
Proof.
  intros Hk.
  rewrite <- (Z.mod_pow2_bits_low (to_i64 z) 64) by lia.
  rewrite to_i64_mod. apply Z.mod_pow2_bits_low. lia.
Qed.

Lemma testbit_bit k n :
  Z.testbit (bit k) (Z.of_nat n) = bool_decide (n = k).
Proof.
  unfold bit. rewrite Z.shiftl_1_l.
  rewrite Z.pow2_bits_eqb by lia.
  destruct (Z.eqb_spec (Z.of_nat k) (Z.of_nat n)); case_bool_decide; lia.
Qed.

Lemma land_bit w k :
  (Z.land w (bit k) =? 0)%Z = negb (Z.testbit w (Z.of_nat k)).
Proof.
  destruct (Z.testbit w (Z.of_nat k)) eqn:Hb; simpl.
  - apply Z.eqb_neq. intros H0.
    assert (Z.testbit (Z.land w (bit k)) (Z.of_nat k) = true) as Ht.
    { by rewrite Z.land_spec, Hb, testbit_bit, bool_decide_eq_true_2. }
    rewrite H0, Z.bits_0 in Ht. discriminate.
  - apply Z.eqb_eq. apply Z.bits_inj'. intros n Hn.
    rewrite Z.land_spec, Z.bits_0.
    rewrite <- (Z2Nat.id n) by lia. rewrite testbit_bit.
    case_bool_decide as He; [| by rewrite andb_false_r].
    subst k. by rewrite Hb.
Qed.

(** The code's bit test reads the two's complement bit [k]. *)
Lemma test_bit_spec w k :
  k < 64 -> test_bit w k = Z.testbit w (Z.of_nat k).
Proof.
  intros Hk. unfold test_bit.
  by rewrite land_bit, negb_involutive, testbit_to_u64.
Qed.

(** Setting bit [k] leaves the other 63 bits as they were. *)
Lemma test_bit_set_bit w k n :
  k < 64 -> n < 64 ->
  test_bit (set_bit w k) n = test_bit w n || bool_decide (n = k).
Proof.
  intros Hk Hn. rewrite !test_bit_spec by done. unfold set_bit.
  by rewrite testbit_to_i64, Z.lor_spec, testbit_to_u64, testbit_bit.
Qed.

(** [a | b] on two signed words. *)
Lemma test_bit_lor a b n :
  n < 64 -> test_bit (Z.lor a b) n = test_bit a n || test_bit b n.
Proof. intros Hn. rewrite !test_bit_spec by done. apply Z.lor_spec. Qed.

Lemma test_bit_0 n : test_bit 0%Z n = false.
Proof. reflexivity. Qed.

(** A word has no bit at or beyond position 64. *)
Lemma test_bit_high w k : 64 <= k -> test_bit w k = false.
Proof.
  intros Hk. unfold test_bit. rewrite land_bit, negb_involutive.
  unfold to_u64. apply Z.mod_pow2_bits_high. lia.
Qed.

Lemma test_bit_true_lt w k : test_bit w k = true -> k < 64.
Proof.
  intros Hb. destruct (decide (k < 64)) as [| Hge]; [done |].
  rewrite test_bit_high in Hb by lia. discriminate.
Qed.

End Word.

Export Word.

(** ** Tensors *)

Module Tensor.

(** Reading [t[i]]; an index outside the tensor reads the default of the
    element type. *)
Class Dflt (A : Type) := dflt : A.
#[export] Instance Dflt_Z : Dflt Z := 0%Z.
#[export] Instance Dflt_Q : Dflt Q := 0%Q.
#[export] Instance Dflt_nat : Dflt nat := 0.
#[export] Instance Dflt_bool : Dflt bool := false.
#[export] Instance Dflt_list {A} : Dflt (list A) := [].

Definition rd {A} `{!Dflt A} (t : list A) (i : nat) : A :=
  default dflt (t !! i).

(** [torch::zeros({n})] and [torch::zeros({r, c})] *)
Definition zeros1 {A} (z : A) (n : nat) : list A := replicate n z.
Definition zeros2 {A} (z : A) (r c : nat) : list (list A) :=
  replicate r (replicate c z).

(** [t[i][j]] as an rvalue and [t[i][j] = v]. *)
Definition get2 {A} `{!Dflt A} (t : list (list A)) (i j : nat) : A :=
  rd (rd t i) j.
Definition set2 {A} (t : list (list A)) (i j : nat) (v : A) : list (list A) :=
  alter (fun row => <[j := v]> row) i t.

(** [t.size(1)] of a rank-2 tensor; an empty tensor has no columns here,
    as for [torch::zeros({0, divup(0, FLAG_WIDTH)})]. *)
Definition size1 {A} (t : list (list A)) : nat :=
  match t with
  | [] => 0
  | row :: _ => length row
  end.

(** [t.index({mask})] with a boolean mask: the selected entries, in order. *)
Fixpoint index {A} (t : list A) (mask : list bool) : list A :=
  match t, mask with
  | x :: t', b :: mask' => if b then x :: index t' mask' else index t' mask'
  | _, _ => []
  end.

(** [x < y] on scalars. *)
Definition scalar_lt (x y : Q) : bool := negb (Qle_bool y x).

(** [scores.argsort(-1, true)]: the indices of [scores] by descending score.
    The library leaves the order of equal scores open; this model keeps
    equal scores in index order. *)
Fixpoint insert_desc (scores : list Q) (i : nat) (l : list nat) : list nat :=
  match l with
  | [] => [i]
  | j :: l' =>
      if scalar_lt (rd scores i) (rd scores j)
      then j :: insert_desc scores i l'
      else i :: l
  end.

Definition argsort (scores : list Q) : list nat :=
  foldr (insert_desc scores) [] (seq 0 (length scores)).

(** [divup(m, n)] of d3d/common.h *)
Definition divup (m n : nat) : nat := (m + n - 1) / n.

End Tensor.

Export Tensor.

(** ** The kernels *)

(** Template parameters, declared in d3d/box/nms.h. *)
Inductive IouType := BOX | POLY.
Inductive SupressionType := HARD | LINEAR | GAUSSIAN.

(** The two tensors written by [nms2d_iou_kernel]. *)
Record IouState := mkIouState {
  iou_coeffs_ : list (list Q);
  mask_ : list (list bitvec_t)
}.

(** The three tensors written by [nms_collect_kernel]. *)
Record CollectState := mkCollectState {
  remv_ : list bitvec_t;
  scores_ : list Q;
  suppressed_ : list bool
}.

Section Kernels.

(** [_BoxUtilCuda<scalar_t, BoxType>::make_box(row).iou(make_box(row'))]
    for the box type selected by [Iou]. *)
Variable iou : IouType -> list Q -> list Q -> Q.
(** [pow] and [exp] of the math library. *)
Variable pow : Q -> Q -> Q.
Variable exp : Q -> Q.

(** The template arguments the dispatch macros select from the run-time
    [iou_type] and [supression_type]. *)
Variable Iou : IouType.
Variable Supression : SupressionType.

(** Body of the loop [for (int i = start; i < col_size; i++)]. *)
Definition iou_loop_body (bcur : list Q) (block_boxes : list (list Q))
    (iou_threshold supression_param : Q) (idx : nat)
    (acc : bitvec_t * list (list Q)) (i : nat) : bitvec_t * list (list Q) :=
  let v := iou Iou bcur (rd block_boxes i) in
  let flag := if scalar_lt iou_threshold v then set_bit acc.1 i else acc.1 in
  let coeffs :=
    match Supression with
    | LINEAR =>
        set2 acc.2 idx i (get2 acc.2 idx i * (1 - pow v supression_param))%Q
    | GAUSSIAN =>
        set2 acc.2 idx i (get2 acc.2 idx i * exp (- v * v / supression_param))%Q
    | HARD => acc.2
    end in
  (flag, coeffs).

(** One thread [(blockIdx.y, blockIdx.x, threadIdx.x)] of the kernel.
    [block_boxes] is the shared tile as it stands after [__syncthreads()]. *)
Definition nms2d_iou_kernel (boxes_ : list (list Q)) (order_ : list nat)
    (iou_threshold supression_param : Q)
    (blockIdx_y blockIdx_x threadIdx_x : nat) (st : IouState) : IouState :=
  let row_start := blockIdx_y in
  let col_start := blockIdx_x in
  if bool_decide (col_start < row_start) then st else
  let row_size :=
    Nat.min (length boxes_ - Nat.shiftl row_start FLAG_BITS) FLAG_WIDTH in
  let col_size :=
    Nat.min (length boxes_ - Nat.shiftl col_start FLAG_BITS) FLAG_WIDTH in
  let block_boxes :=
    (fun t => rd boxes_ (rd order_ (Nat.shiftl col_start FLAG_BITS + t)))
      <$> seq 0 col_size in
  if bool_decide (threadIdx_x < row_size) then
    let idx := Nat.shiftl row_start FLAG_BITS + threadIdx_x in
    let bcur_idx := rd order_ idx in
    let bcur := rd boxes_ bcur_idx in
    let start :=
      if bool_decide (row_start = col_start) then threadIdx_x + 1 else 0 in
    let r :=
      foldl (iou_loop_body bcur block_boxes iou_threshold supression_param idx)
        (0%Z, iou_coeffs_ st) (seq start (col_size - start)) in
    mkIouState r.2 (set2 (mask_ st) idx col_start r.1)
  else st.

(** The launch [<<<dim3(nblocks, nblocks), dim3(FLAG_WIDTH)>>>]: every thread
    of the grid runs once; they are taken here block row by block row. *)
Definition grid (nblocks : nat) : list (nat * nat * nat) :=
  y ← seq 0 nblocks; x ← seq 0 nblocks; t ← seq 0 FLAG_WIDTH; [(y, x, t)].

Definition launch_nms2d_iou_kernel (nblocks : nat)
    (boxes_ : list (list Q)) (order_ : list nat)
    (iou_threshold supression_param : Q) (st : IouState) : IouState :=
  foldl (fun st '(y, x, t) =>
           nms2d_iou_kernel boxes_ order_ iou_threshold supression_param
             y x t st)
    st (grid nblocks).

(** Body of [for (int k = 0; k < FLAG_WIDTH; k++)] in the soft branch. *)
Definition collect_bit (mask : list (list bitvec_t)) (coeffs : list (list Q))
    (score_threshold : Q) (i j : nat) (st : CollectState) (k : nat)
    : CollectState :=
  if test_bit (get2 mask i j) k then
    let i2 := Nat.shiftl j FLAG_BITS + k in
    if test_bit (rd (remv_ st) j) k then st
    else
      let s := (rd (scores_ st) i2 * get2 coeffs i i2)%Q in
      let scores' := <[i2 := s]> (scores_ st) in
      if scalar_lt s score_threshold
      then mkCollectState (<[j := set_bit (rd (remv_ st) j) k]> (remv_ st))
             scores' (suppressed_ st)
      else mkCollectState (remv_ st) scores' (suppressed_ st)
  else st.

(** Body of [for (int j = block_idx; j < nblocks; j++)]. *)
Definition collect_block (mask : list (list bitvec_t)) (coeffs : list (list Q))
    (score_threshold : Q) (i : nat) (st : CollectState) (j : nat)
    : CollectState :=
  match Supression with
  | HARD =>
      mkCollectState (<[j := Z.lor (rd (remv_ st) j) (get2 mask i j)]> (remv_ st))
        (scores_ st) (suppressed_ st)
  | _ => foldl (collect_bit mask coeffs score_threshold i j) st (seq 0 FLAG_WIDTH)
  end.

(** Body of [for (int i = 0; i < nboxes; i++)]. *)
Definition collect_row (order : list nat) (mask : list (list bitvec_t))
    (coeffs : list (list Q)) (score_threshold : Q) (nblocks : nat)
    (st : CollectState) (i : nat) : CollectState :=
  let block_idx := Nat.shiftr i FLAG_BITS in
  let thread_idx := Nat.land i (FLAG_WIDTH - 1) in
  if test_bit (rd (remv_ st) block_idx) thread_idx
  then mkCollectState (remv_ st) (scores_ st)
         (<[rd order i := true]> (suppressed_ st))
  else foldl (collect_block mask coeffs score_threshold i) st
         (seq block_idx (nblocks - block_idx)).

(** The state of the single collecting thread after [n] rounds of its
    outer loop. *)
Definition collect_upto (order : list nat) (mask : list (list bitvec_t))
    (coeffs : list (list Q)) (score_threshold : Q) (n : nat)
    (st : CollectState) : CollectState :=
  foldl (collect_row order mask coeffs score_threshold (size1 mask)) st
    (seq 0 n).

Definition nms_collect_kernel (order : list nat) (mask : list (list bitvec_t))
    (coeffs : list (list Q)) (remv : list bitvec_t) (scores : list Q)
    (score_threshold : Q) (suppressed : list bool) : CollectState :=
  let nboxes := length mask in
  collect_upto order mask coeffs score_threshold nboxes
    (mkCollectState remv scores suppressed).

(** The tensors after the first launch of [nms2d_cuda_templated]. *)
Definition pairwise_phase (boxes : list (list Q)) (order : list nat)
    (iou_threshold supression_param : Q) : IouState :=
  let nboxes := length boxes in
  let nblocks := divup nboxes FLAG_WIDTH in
  let mask := zeros2 0%Z nboxes nblocks in
  let iou_coeffs :=
    match Supression with
    | HARD => zeros2 0%Q 0 0
    | _ => zeros2 0%Q nboxes nboxes
    end in
  launch_nms2d_iou_kernel nblocks boxes order iou_threshold supression_param
    (mkIouState iou_coeffs mask).

(** [nms2d_cuda_templated]; the result holds [remv] and the two argument
    tensors the second kernel writes, [scores] and [suppressed]. *)
Definition nms2d_cuda_templated (boxes : list (list Q)) (order : list nat)
    (scores : list Q) (iou_threshold score_threshold supression_param : Q)
    (suppressed : list bool) : CollectState :=
  let nboxes := length boxes in
  let nblocks := divup nboxes FLAG_WIDTH in
  let st := pairwise_phase boxes order iou_threshold supression_param in
  let remv := zeros1 0%Z nblocks in
  nms_collect_kernel order (mask_ st) (iou_coeffs_ st) remv scores
    score_threshold suppressed.

(** The tensors [nms2d_cuda] builds before the dispatch. *)
Definition score_mask (scores : list Q) (score_threshold : Q) : list bool :=
  (fun s => scalar_lt score_threshold s) <$> scores.
Definition boxes_masked (boxes : list (list Q)) (scores : list Q)
    (score_threshold : Q) : list (list Q) :=
  index boxes (score_mask scores score_threshold).
Definition scores_masked (scores : list Q) (score_threshold : Q) : list Q :=
  index scores (score_mask scores score_threshold).

(** The working tensors when the dispatched call returns. *)
Definition nms2d_cuda_run (boxes : list (list Q)) (scores : list Q)
    (iou_threshold score_threshold supression_param : Q) : CollectState :=
  let bm := boxes_masked boxes scores score_threshold in
  let sm := scores_masked scores score_threshold in
  let order := argsort sm in
  let suppressed := zeros1 false (length bm) in
  nms2d_cuda_templated bm order sm iou_threshold score_threshold
    supression_param suppressed.

Definition nms2d_cuda (boxes : list (list Q)) (scores : list Q)
    (iou_threshold score_threshold supression_param : Q) : list bool :=
  suppressed_
    (nms2d_cuda_run boxes scores iou_threshold score_threshold
       supression_param).

(** ** The host functions over a store of tensors

    A [Tensor] argument is a handle on storage; the kernels write through
    the accessors they are given.  To state which storage a call writes,
    the host functions are given a second time over a store: a handle is a
    position in the store, a tensor-producing library call ([operator>],
    [index], [argsort], [zeros]) allocates, and a kernel launch reads the
    tensors behind its accessors, runs the kernel above, and writes back
    those it has non-const accessors for (the accessors of each launch
    here are on distinct tensors). *)

Inductive tensor :=
  | TScalar1 (t : list Q)
  | TScalar2 (t : list (list Q))
  | TLong1 (t : list bitvec_t)
  | TLong2 (t : list (list bitvec_t))
  | TIndex (t : list nat)
  | TBool1 (t : list bool).

Abbreviation handle := nat (only parsing).
Abbreviation store := (list tensor) (only parsing).

(** Store-passing computations that may fault on a bad handle. *)
Definition St (A : Type) : Type := store -> option (A * store).

Definition ret {A} (x : A) : St A := fun h => Some (x, h).
Definition bind {A B} (m : St A) (f : A -> St B) : St B :=
  fun h => match m h with
           | Some (x, h') => f x h'
           | None => None
           end.
Definition fault {A} : St A := fun _ => None.

Notation "'let*' x := m 'in' f" := (bind m (fun x => f))
  (at level 10, x pattern, m at level 100, f at level 200).

Definition alloc (t : tensor) : St handle :=
  fun h => Some (length h, h ++ [t]).
Definition read (l : handle) : St tensor :=
  fun h => match h !! l with
           | Some t => Some (t, h)
           | None => None
           end.
Definition write (l : handle) (t : tensor) : St unit :=
  fun h => if bool_decide (l < length h) then Some (tt, <[l := t]> h) else None.

Definition read_scalar1 (l : handle) : St (list Q) :=
  let* t := read l in match t with TScalar1 x => ret x | _ => fault end.
Definition read_scalar2 (l : handle) : St (list (list Q)) :=
  let* t := read l in match t with TScalar2 x => ret x | _ => fault end.
Definition read_long1 (l : handle) : St (list bitvec_t) :=
  let* t := read l in match t with TLong1 x => ret x | _ => fault end.
Definition read_long2 (l : handle) : St (list (list bitvec_t)) :=
  let* t := read l in match t with TLong2 x => ret x | _ => fault end.
Definition read_index (l : handle) : St (list nat) :=
  let* t := read l in match t with TIndex x => ret x | _ => fault end.
Definition read_bool1 (l : handle) : St (list bool) :=
  let* t := read l in match t with TBool1 x => ret x | _ => fault end.

(** [nms2d_iou_kernel<<<blocks, threads>>>(boxes, order, ..., iou_coeffs, mask)] *)
Definition launch_iou_store (nblocks : nat) (boxes order : handle)
    (iou_threshold supression_param : Q) (iou_coeffs mask : handle) : St unit :=
  let* b := read_scalar2 boxes in
  let* o := read_index order in
  let* c := read_scalar2 iou_coeffs in
  let* m := read_long2 mask in
  let st :=
    launch_nms2d_iou_kernel nblocks b o iou_threshold supression_param
      (mkIouState c m) in
  let* _ := write iou_coeffs (TScalar2 (iou_coeffs_ st)) in
  write mask (TLong2 (mask_ st)).

(** [nms_collect_kernel<<<1, 1>>>(order, mask, iou_coeffs, remv, scores,
    score_threshold, suppressed)] *)
Definition launch_collect_store (order mask iou_coeffs remv scores : handle)
    (score_threshold : Q) (suppressed : handle) : St unit :=
  let* o := read_index order in
  let* m := read_long2 mask in
  let* c := read_scalar2 iou_coeffs in
  let* r := read_long1 remv in
  let* s := read_scalar1 scores in
  let* f := read_bool1 suppressed in
  let st := nms_collect_kernel o m c r s score_threshold f in
  let* _ := write remv (TLong1 (remv_ st)) in
  let* _ := write scores (TScalar1 (scores_ st)) in
  write suppressed (TBool1 (suppressed_ st)).

Definition nms2d_cuda_templated_store (boxes order scores : handle)
    (iou_threshold score_threshold supression_param : Q)
    (suppressed : handle) : St unit :=
  let* b := read_scalar2 boxes in
  let nboxes := length b in
  let nblocks := divup nboxes FLAG_WIDTH in
  let* mask := alloc (TLong2 (zeros2 0%Z nboxes nblocks)) in
  let* iou_coeffs :=
    alloc (TScalar2 match Supression with
                    | HARD => zeros2 0%Q 0 0
                    | _ => zeros2 0%Q nboxes nboxes
                    end) in
  let* _ :=
    launch_iou_store nblocks boxes order iou_threshold supression_param
      iou_coeffs mask in
  let* remv := alloc (TLong1 (zeros1 0%Z nblocks)) in
  launch_collect_store order mask iou_coeffs remv scores score_threshold
    suppressed.

Definition nms2d_cuda_store (boxes scores : handle)
    (iou_threshold score_threshold supression_param : Q) : St handle :=
  let* b := read_scalar2 boxes in
  let* s := read_scalar1 scores in
  let* score_mask := alloc (TBool1 (score_mask s score_threshold)) in
  let* sm := read_bool1 score_mask in
  let* boxes_masked := alloc (TScalar2 (index b sm)) in
  let* scores_masked := alloc (TScalar1 (index s sm)) in
  let* s' := read_scalar1 scores_masked in
  let* order := alloc (TIndex (argsort s')) in
  let* b' := read_scalar2 boxes_masked in
  let* suppressed := alloc (TBool1 (zeros1 false (length b'))) in
  let* _ :=
    nms2d_cuda_templated_store boxes_masked order scores_masked
      iou_threshold score_threshold supression_param suppressed in
  ret suppressed.

(** ** Facts about tensors *)

Lemma rd_lookup {A} `{!Dflt A} (t : list A) i x : t !! i = Some x -> rd t i = x.
Proof. unfold rd. by intros ->. Qed.

Lemma rd_ge {A} `{!Dflt A} (t : list A) i : length t <= i -> rd t i = dflt.
Proof. intros Hi. unfold rd. by rewrite lookup_ge_None_2. Qed.

Lemma rd_lt {A} `{!Dflt A} (t : list A) i :
  i < length t -> t !! i = Some (rd t i).
Proof.
  intros Hi. destruct (lookup_lt_is_Some_2 t i Hi) as [x Hx].
  by rewrite (rd_lookup t i x).
Qed.

Lemma rd_insert {A} `{!Dflt A} (t : list A) i j x :
  rd (<[i := x]> t) j = if bool_decide (i = j /\ i < length t) then x else rd t j.
Proof.
  unfold rd. case_bool_decide as Hc.
  - destruct Hc as [-> Hi]. by rewrite list_lookup_insert_eq.
  - destruct (decide (i = j)) as [-> | Hne].
    + rewrite list_insert_ge; [done | lia].
    + by rewrite list_lookup_insert_ne.
Qed.

Lemma rd_alter {A} `{!Dflt A} (f : A -> A) (t : list A) i j :
  rd (alter f i t) j =
    if bool_decide (i = j /\ i < length t) then f (rd t i) else rd t j.
Proof.
  unfold rd. case_bool_decide as Hc.
  - destruct Hc as [-> Hi]. rewrite list_lookup_alter_eq.
    by destruct (lookup_lt_is_Some_2 t j Hi) as [x ->].
  - destruct (decide (i = j)) as [-> | Hne].
    + rewrite list_lookup_alter_eq, lookup_ge_None_2; [done | lia].
    + by rewrite list_lookup_alter_ne.
Qed.

Lemma rd_replicate {A} `{!Dflt A} n (x : A) i :
  rd (replicate n x) i = if bool_decide (i < n) then x else dflt.
Proof.
  unfold rd. case_bool_decide as Hc.
  - by rewrite lookup_replicate_2.
  - rewrite (proj1 (lookup_replicate_None n x i)); [done | lia].
Qed.

Definition dims {A} (t : list (list A)) (r c : nat) : Prop :=
  length t = r /\ Forall (fun row => length row = c) t.

Lemma dims_zeros2 {A} (z : A) r c : dims (zeros2 z r c) r c.
Proof.
  split; [apply length_replicate |].
  apply Forall_replicate, length_replicate.
Qed.

Lemma dims_set2 {A} (t : list (list A)) r c i j v :
  dims t r c -> dims (set2 t i j v) r c.
Proof.
  intros [Hr Hc]. split; unfold set2.
  - by rewrite length_alter.
  - apply Forall_alter; [done |]. intros row _ Hrow. by rewrite length_insert.
Qed.

Lemma dims_row {A} `{!Dflt A} (t : list (list A)) r c i :
  dims t r c -> i < r -> length (rd t i) = c.
Proof.
  intros [Hr Hc] Hi. rewrite Forall_lookup in Hc.
  apply (Hc i). apply rd_lt. lia.
Qed.

Lemma get2_set2 {A} `{!Dflt A} (t : list (list A)) r c i j v i' j' :
  dims t r c ->
  get2 (set2 t i j v) i' j' =
    if bool_decide (i = i' /\ j = j' /\ i < r /\ j < c) then v
    else get2 t i' j'.
Proof.
  intros Hd. unfold get2, set2. rewrite rd_alter.
  case_bool_decide as Hi.
  - destruct Hi as [-> Hi]. rewrite rd_insert.
    rewrite (dims_row t r c i') by (destruct Hd; (done || lia)).
    destruct Hd as [Hr _].
    case_bool_decide as Hj.
    + destruct Hj as [-> Hj]. rewrite bool_decide_eq_true_2; [done | lia].
    + rewrite bool_decide_eq_false_2; [done | lia].
  - destruct Hd as [Hr _].
    rewrite bool_decide_eq_false_2; [done | lia].
Qed.

Lemma get2_zeros2 {A} `{!Dflt A} r c i j : get2 (zeros2 (dflt : A) r c) i j = dflt.
Proof.
  unfold get2, zeros2. rewrite rd_replicate. case_bool_decide.
  - rewrite rd_replicate. by case_bool_decide.
  - done.
Qed.

Lemma get2_outside {A} `{!Dflt A} (t : list (list A)) r c i j :
  dims t r c -> r <= i \/ c <= j -> get2 t i j = dflt.
Proof.
  intros Hd Hout. unfold get2.
  destruct (decide (i < r)) as [Hi | Hi].
  - apply rd_ge. rewrite (dims_row t r c) by done. lia.
  - destruct Hd as [Hr _]. rewrite (rd_ge t) by lia. done.
Qed.

Lemma size1_dims {A} (t : list (list A)) r c :
  dims t r c -> 0 < r -> size1 t = c.
Proof.
  intros [Hr Hc] Hpos. destruct t as [| row t]; simpl in *; [lia |].
  by inversion Hc.
Qed.

(** [scalar_lt] decides the strict order of the rationals. *)
Lemma scalar_lt_spec x y : scalar_lt x y = true <-> (x < y)%Q.
Proof.
  unfold scalar_lt. rewrite negb_true_iff, <- not_true_iff_false, Qle_bool_iff.
  split; [apply Qnot_le_lt | apply Qlt_not_le].
Qed.

Lemma scalar_lt_false x y : scalar_lt x y = false <-> (y <= x)%Q.
Proof.
  unfold scalar_lt. rewrite negb_false_iff. apply Qle_bool_iff.
Qed.

Lemma scalar_lt_comp x y y' : (y == y')%Q -> scalar_lt x y = scalar_lt x y'.
Proof. intros He. unfold scalar_lt. by rewrite He. Qed.

(** ** The pairwise kernel *)

(** The row of [boxes] at sorted position [p]. *)
Definition sorted_box (boxes : list (list Q)) (order : list nat) (p : nat)
    : list Q :=
  rd boxes (rd order p).

(** The relation the bit matrix records: [j] comes strictly after [i] in
    sorted order, both are shapes, and their IoU exceeds the threshold. *)
Definition overlap (boxes : list (list Q)) (order : list nat)
    (iou_threshold : Q) (i j : nat) : bool :=
  bool_decide (i < j < length boxes)
  && scalar_lt iou_threshold
       (iou Iou (sorted_box boxes order i) (sorted_box boxes order j)).

(** The [flag] part of the inner loop. *)
Definition flag_step (bcur : list Q) (block_boxes : list (list Q))
    (iou_threshold : Q) (flag : bitvec_t) (i : nat) : bitvec_t :=
  if scalar_lt iou_threshold (iou Iou bcur (rd block_boxes i))
  then set_bit flag i else flag.

(** The word thread [(y, x, t)] stores in [mask_[(y << FLAG_BITS) + t][x]]. *)
Definition thread_flag (boxes : list (list Q)) (order : list nat)
    (iou_threshold : Q) (y x t : nat) : bitvec_t :=
  let col_size := Nat.min (length boxes - Nat.shiftl x FLAG_BITS) FLAG_WIDTH in
  let block_boxes :=
    (fun t => rd boxes (rd order (Nat.shiftl x FLAG_BITS + t)))
      <$> seq 0 col_size in
  let start := if bool_decide (y = x) then t + 1 else 0 in
  foldl (flag_step (rd boxes (rd order (Nat.shiftl y FLAG_BITS + t)))
           block_boxes iou_threshold)
    0%Z (seq start (col_size - start)).

Lemma iou_loop_flag bcur bb thr p idx l acc :
  (foldl (iou_loop_body bcur bb thr p idx) acc l).1
  = foldl (flag_step bcur bb thr) acc.1 l.
Proof.
  revert acc. induction l as [| i l IH]; intros acc; [done |].
  simpl. by rewrite IH.
Qed.

Lemma flag_fold_bit bcur bb thr l flag k :
  k < 64 -> Forall (fun i => i < 64) l ->
  test_bit (foldl (flag_step bcur bb thr) flag l) k
  = test_bit flag k
    || (bool_decide (k ∈ l) && scalar_lt thr (iou Iou bcur (rd bb k))).
Proof.
  intros Hk. revert flag. induction l as [| i l IH]; intros flag Hl.
  - rewrite bool_decide_eq_false_2 by apply not_elem_of_nil.
    by rewrite orb_false_r.
  - inversion Hl as [| ? ? Hi Hl']; subst. cbn [foldl]. rewrite IH by done.
    unfold flag_step at 1.
    destruct (decide (k = i)) as [-> | Hne].
    + rewrite (bool_decide_eq_true_2 (i ∈ i :: l)) by apply list_elem_of_here.
      destruct (scalar_lt thr (iou Iou bcur (rd bb i))) eqn:Hlt; simpl.
      * rewrite test_bit_set_bit by done.
        rewrite bool_decide_eq_true_2 by done.
        by rewrite !orb_true_r.
      * by rewrite andb_false_r, !orb_false_r.
    + assert (bool_decide (k ∈ i :: l) = bool_decide (k ∈ l)) as ->.
      { apply bool_decide_ext. rewrite elem_of_cons.
        split; [intros [? | ?]; [congruence | done] | by right]. }
      destruct (scalar_lt thr (iou Iou bcur (rd bb i))); [| done].
      rewrite test_bit_set_bit by done.
      by rewrite (bool_decide_eq_false_2 (k = i)), orb_false_r.
Qed.

Lemma rd_fmap_seq {A} `{!Dflt A} (f : nat -> A) n k :
  k < n -> rd (f <$> seq 0 n) k = f k.
Proof.
  intros Hk. apply rd_lookup.
  by rewrite list_lookup_fmap, lookup_seq_lt.
Qed.

(** Bit [k] of the word of thread [(y, x, t)] is the overlap of the sorted
    positions [64 y + t] and [64 x + k]. *)
Lemma thread_flag_bit boxes order thr y x t k :
  y <= x -> t < 64 -> k < 64 ->
  test_bit (thread_flag boxes order thr y x t) k
  = overlap boxes order thr (y * 64 + t) (x * 64 + k).
Proof.
  intros Hyx Ht Hk. unfold thread_flag, overlap, sorted_box.
  rewrite !shiftl_mul, FLAG_WIDTH_eq.
  set (col_size := Nat.min (length boxes - x * 64) 64).
  set (start := if bool_decide (y = x) then t + 1 else 0).
  rewrite flag_fold_bit; [| done |].
  2:{ apply Forall_forall. intros i Hi. apply elem_of_seq in Hi.
      subst col_size. lia. }
  rewrite test_bit_0, orb_false_l.
  assert (bool_decide (k ∈ seq start (col_size - start))
          = bool_decide (y * 64 + t < x * 64 + k < length boxes)) as Hin.
  { apply bool_decide_ext. rewrite elem_of_seq. subst start col_size.
    case_bool_decide; lia. }
  rewrite Hin. clear Hin. case_bool_decide as Hrange; [| done].
  rewrite rd_fmap_seq; [done |]. subst col_size. lia.
Qed.

(** What one thread does to [mask_]. *)
Lemma thread_mask boxes order thr p y x t st :
  mask_ (nms2d_iou_kernel boxes order thr p y x t st)
  = if bool_decide (y <= x /\ t < Nat.min (length boxes - y * 64) 64)
    then set2 (mask_ st) (y * 64 + t) x (thread_flag boxes order thr y x t)
    else mask_ st.
Proof.
  unfold nms2d_iou_kernel. rewrite !shiftl_mul, FLAG_WIDTH_eq.
  case_bool_decide as Hyx.
  - rewrite (bool_decide_eq_false_2 (y <= x /\ _)); [done | lia].
  - case_bool_decide as Ht.
    + rewrite (bool_decide_eq_true_2 (y <= x /\ _)) by lia. cbn [mask_].
      rewrite iou_loop_flag. unfold thread_flag.
      by rewrite !shiftl_mul, FLAG_WIDTH_eq.
    + rewrite (bool_decide_eq_false_2 (y <= x /\ _)); [done | lia].
Qed.

Lemma divmod_64 i : i = i / 64 * 64 + i mod 64 /\ i mod 64 < 64.
Proof.
  split; [| apply Nat.mod_upper_bound; lia].
  rewrite (Nat.div_mod_eq i 64) at 1. lia.
Qed.

Lemma divup_64 m : m <= divup m 64 * 64 /\ forall i, i < m -> i / 64 < divup m 64.
Proof.
  unfold divup.
  destruct (divmod_64 (m + 64 - 1)) as [He Hlt].
  split; [lia |].
  intros i Hi. destruct (divmod_64 i) as [Hi' Hlt'].
  apply Nat.Div0.div_lt_upper_bound; lia.
Qed.

Lemma grid_elem nb y x t : (y, x, t) ∈ grid nb <-> y < nb /\ x < nb /\ t < 64.
Proof.
  unfold grid. rewrite list_elem_of_bind. split.
  - intros (y' & Hin & Hy). apply list_elem_of_bind in Hin as (x' & Hin & Hx).
    apply list_elem_of_bind in Hin as (t' & Hin & Ht).
    apply list_elem_of_singleton in Hin. injection Hin as -> -> ->.
    apply elem_of_seq in Hy, Hx, Ht. rewrite FLAG_WIDTH_eq in Ht. lia.
  - intros (Hy & Hx & Ht). exists y. split; [| apply elem_of_seq; lia].
    apply list_elem_of_bind. exists x. split; [| apply elem_of_seq; lia].
    apply list_elem_of_bind. exists t. split; [apply list_elem_of_singleton; done |].
    apply elem_of_seq. rewrite FLAG_WIDTH_eq. lia.
Qed.

(** The threads of a launch, in any order and number, keep the shape of
    [mask_]; the word of cell [(i, b)] is the one stored by the thread
    [(i / 64, b, i mod 64)] once that thread has run. *)
Lemma launch_mask_dims boxes order thr p nb ts st :
  dims (mask_ st) (length boxes) nb ->
  dims (mask_ (foldl (fun st '(y, x, t) =>
                        nms2d_iou_kernel boxes order thr p y x t st) st ts))
    (length boxes) nb.
Proof.
  revert st. induction ts as [| [[y x] t] ts IH]; intros st Hd; [done |].
  cbn [foldl]. apply IH. rewrite thread_mask.
  destruct (bool_decide (y <= x /\ _)); [by apply dims_set2 | done].
Qed.

Lemma launch_mask_get boxes order thr p nb ts st i b :
  dims (mask_ st) (length boxes) nb ->
  i < length boxes -> b < nb ->
  get2 (mask_ (foldl (fun st '(y, x, t) =>
                        nms2d_iou_kernel boxes order thr p y x t st) st ts)) i b
  = if bool_decide ((i / 64, b, i mod 64) ∈ ts /\ i / 64 <= b)
    then thread_flag boxes order thr (i / 64) b (i mod 64)
    else get2 (mask_ st) i b.
Proof.
  intros Hd Hi Hb. revert st Hd.
  destruct (divmod_64 i) as [Hdm Hlt].
  generalize dependent (i mod 64). generalize dependent (i / 64).
  intros q r Hdm Hlt.
  induction ts as [| [[y x] t] ts IH]; intros st Hd.
  - cbn [foldl]. rewrite bool_decide_eq_false_2; [done |].
    intros [Hin _]. by apply not_elem_of_nil in Hin.
  - cbn [foldl]. rewrite IH.
    2:{ rewrite thread_mask.
        destruct (bool_decide (y <= x /\ _)); [by apply dims_set2 | done]. }
    case_bool_decide as Hts.
    + rewrite bool_decide_eq_true_2; [done |].
      destruct Hts. split; [by apply list_elem_of_further | done].
    + rewrite thread_mask. case_bool_decide as Hw.
      * destruct Hw as [Hyx Ht].
        rewrite (get2_set2 _ _ _ _ _ _ _ _ Hd).
        case_bool_decide as Hcell.
        -- destruct Hcell as (<- & <- & _).
           assert (q = y /\ r = t) as [-> ->] by lia.
           rewrite bool_decide_eq_true_2; [done |].
           split; [apply list_elem_of_here | done].
        -- rewrite bool_decide_eq_false_2; [done |].
           intros [Hin Hle]. apply elem_of_cons in Hin as [Heq | Hin].
           ++ injection Heq as <- <- <-. apply Hcell. lia.
           ++ by apply Hts.
      * rewrite bool_decide_eq_false_2; [done |].
        intros [Hin Hle]. apply elem_of_cons in Hin as [Heq | Hin].
        -- injection Heq as <- <- <-. apply Hw. lia.
        -- by apply Hts.
Qed.

Lemma pairwise_mask_dims boxes order thr p :
  dims (mask_ (pairwise_phase boxes order thr p))
    (length boxes) (divup (length boxes) 64).
Proof.
  unfold pairwise_phase, launch_nms2d_iou_kernel. rewrite FLAG_WIDTH_eq.
  apply launch_mask_dims. apply dims_zeros2.
Qed.

(** After the launch, bit [k] of word [b] in row [i] of [mask_] is the
    overlap of the sorted positions [i] and [64 b + k]. *)
Lemma pairwise_mask_bit boxes order thr p i b k :
  k < 64 ->
  test_bit (get2 (mask_ (pairwise_phase boxes order thr p)) i b) k
  = overlap boxes order thr i (b * 64 + k).
Proof.
  intros Hk.
  destruct (divup_64 (length boxes)) as [Hup Hdiv].
  destruct (divmod_64 i) as [Hdm Hlt].
  destruct (decide (i < length boxes /\ b < divup (length boxes) 64))
    as [[Hi Hb] | Hout].
  - unfold pairwise_phase, launch_nms2d_iou_kernel. rewrite FLAG_WIDTH_eq.
    rewrite (launch_mask_get _ _ _ _ (divup (length boxes) 64));
      [| apply dims_zeros2 | done | done].
    cbn [mask_].
    change (zeros2 0%Z) with (zeros2 (A:=Z) dflt). rewrite get2_zeros2.
    case_bool_decide as Hc.
    + destruct Hc as [_ Hle]. rewrite thread_flag_bit by lia.
      by rewrite <- Hdm.
    + assert (¬ i / 64 <= b) as Hnle.
      { intros Hle. apply Hc. split; [| done].
        apply grid_elem. split; [by apply Hdiv | lia]. }
      change (dflt : Z) with 0%Z. rewrite test_bit_0.
      unfold overlap. rewrite bool_decide_eq_false_2; [done | lia].
  - rewrite (get2_outside _ _ _ _ _ (pairwise_mask_dims boxes order thr p))
      by lia.
    change (dflt : Z) with 0%Z. rewrite test_bit_0.
    unfold overlap. rewrite bool_decide_eq_false_2; [done | lia].
Qed.

(** The order in which the threads of the launch run does not matter to
    [mask_]: any schedule that runs the threads of the grid leaves the
    same words. *)
Lemma launch_mask_any_schedule boxes order thr p nb ts st i b :
  (forall t, t ∈ ts <-> t ∈ grid nb) ->
  dims (mask_ st) (length boxes) nb -> i < length boxes -> b < nb ->
  get2 (mask_ (foldl (fun st '(y, x, t) =>
                        nms2d_iou_kernel boxes order thr p y x t st) st ts)) i b
  = get2 (mask_ (launch_nms2d_iou_kernel nb boxes order thr p st)) i b.
Proof.
  intros Hts Hd Hi Hb. unfold launch_nms2d_iou_kernel.
  rewrite !(launch_mask_get _ _ _ _ nb) by done.
  assert (bool_decide ((i / 64, b, i mod 64) ∈ ts /\ i / 64 <= b)
          = bool_decide ((i / 64, b, i mod 64) ∈ grid nb /\ i / 64 <= b)) as ->.
  { apply bool_decide_ext. by rewrite Hts. }
  done.
Qed.

(** *** The coefficient matrix after the launch *)

(** [iou_coeffs] starts from [torch::zeros] and is only ever multiplied
    into, so every cell stays zero. *)
Definition all_zero (c : list (list Q)) : Prop :=
  Forall (Forall (fun x => (x == 0)%Q)) c.

Lemma all_zero_zeros2 r c : all_zero (zeros2 0%Q r c).
Proof. apply Forall_replicate, Forall_replicate. reflexivity. Qed.

Lemma all_zero_get2 c i j : all_zero c -> (get2 c i j == 0)%Q.
Proof.
  intros Hc. unfold get2, rd.
  destruct (c !! i) as [row |] eqn:Hrow; simpl; [| reflexivity].
  pose proof (proj1 (Forall_lookup _ _) Hc i row Hrow) as Hz.
  destruct (row !! j) as [x |] eqn:Hx; simpl; [| reflexivity].
  exact (proj1 (Forall_lookup _ _) Hz j x Hx).
Qed.

Lemma all_zero_set2 c i j v : all_zero c -> (v == 0)%Q -> all_zero (set2 c i j v).
Proof.
  intros Hc Hv. unfold set2. apply Forall_alter; [done |].
  intros row _ Hrow. by apply Forall_insert.
Qed.

Lemma iou_loop_coeffs_zero bcur bb thr p idx l acc :
  all_zero acc.2 ->
  all_zero (foldl (iou_loop_body bcur bb thr p idx) acc l).2.
Proof.
  revert acc. induction l as [| i l IH]; intros acc Hz; [done |].
  cbn [foldl]. apply IH. unfold iou_loop_body. cbn [snd].
  destruct Supression; [done | |];
    (apply all_zero_set2; [done |]);
    rewrite (all_zero_get2 _ idx i Hz); apply Qmult_0_l.
Qed.

Lemma thread_coeffs_zero boxes order thr p y x t st :
  all_zero (iou_coeffs_ st) ->
  all_zero (iou_coeffs_ (nms2d_iou_kernel boxes order thr p y x t st)).
Proof.
  intros Hz. unfold nms2d_iou_kernel.
  destruct (bool_decide (x < y)); [done |].
  destruct (bool_decide (t < _)); [| done].
  cbn [iou_coeffs_]. by apply iou_loop_coeffs_zero.
Qed.

Lemma pairwise_coeffs_zero boxes order thr p :
  all_zero (iou_coeffs_ (pairwise_phase boxes order thr p)).
Proof.
  unfold pairwise_phase, launch_nms2d_iou_kernel.
  set (st0 := mkIouState _ _).
  assert (all_zero (iou_coeffs_ st0)) as Hz.
  { subst st0. cbn [iou_coeffs_]. destruct Supression; apply all_zero_zeros2. }
  clearbody st0. revert st0 Hz.
  induction (grid (divup (length boxes) FLAG_WIDTH)) as [| [[y x] t] ts IH];
    intros st0 Hz; [done |].
  cbn [foldl]. apply IH. by apply thread_coeffs_zero.
Qed.

(** ** The collecting kernel *)

(** A relation that holds along a run of steps. *)
Lemma foldl_rel {S B} (R : S -> S -> Prop) (f : S -> B -> S) (P : B -> Prop)
    (l : list B) (st : S) :
  (forall s, R s s) -> (forall s1 s2 s3, R s1 s2 -> R s2 s3 -> R s1 s3) ->
  (forall s x, P x -> R s (f s x)) -> Forall P l -> R st (foldl f st l).
Proof.
  intros Hrefl Htrans Hstep. revert st.
  induction l as [| x l IH]; intros st Hl; [apply Hrefl |].
  inversion Hl; subst. cbn [foldl].
  eapply Htrans; [by apply Hstep | by apply IH].
Qed.

(** What the steps taken for an unsuppressed row [i] can do: the flags
    and the sizes stay, accumulator bits are kept, and a new bit is one that
    [mask] holds in row [i]. *)
Record row_rel (mask : list (list bitvec_t)) (i : nat)
    (st st' : CollectState) : Prop := mk_row_rel {
  rr_suppressed : suppressed_ st' = suppressed_ st;
  rr_remv_length : length (remv_ st') = length (remv_ st);
  rr_scores_length : length (scores_ st') = length (scores_ st);
  rr_keep : forall b k, k < 64 ->
    test_bit (rd (remv_ st) b) k = true ->
    test_bit (rd (remv_ st') b) k = true;
  rr_origin : forall b k, k < 64 ->
    test_bit (rd (remv_ st') b) k = true ->
    test_bit (rd (remv_ st) b) k = true \/ test_bit (get2 mask i b) k = true
}.

Lemma row_rel_refl mask i st : row_rel mask i st st.
Proof. split; auto. Qed.

Lemma row_rel_trans mask i s1 s2 s3 :
  row_rel mask i s1 s2 -> row_rel mask i s2 s3 -> row_rel mask i s1 s3.
Proof.
  intros [H1 H2 H3 H4 H5] [G1 G2 G3 G4 G5]. split; try congruence.
  - intros b k Hk Hb. apply G4, H4; done.
  - intros b k Hk Hb. destruct (G5 b k Hk Hb) as [Hb' | Hm]; [| by right].
    by apply H5.
Qed.

Lemma collect_bit_rel mask coeffs thr i j st k :
  k < 64 -> row_rel mask i st (collect_bit mask coeffs thr i j st k).
Proof.
  intros Hk. unfold collect_bit.
  destruct (test_bit (get2 mask i j) k) eqn:Hm; [| apply row_rel_refl].
  destruct (test_bit (rd (remv_ st) j) k) eqn:Hr; [apply row_rel_refl |].
  destruct (scalar_lt _ thr).
  - split; cbn [remv_ scores_ suppressed_]; rewrite ?length_insert; try done.
    + intros b k' Hk' Hb. rewrite rd_insert.
      case_bool_decide as Hc; [| done]. destruct Hc as [-> _].
      rewrite test_bit_set_bit by done. by rewrite Hb.
    + intros b k' Hk'. rewrite rd_insert.
      case_bool_decide as Hc; [| by left]. destruct Hc as [-> _].
      rewrite test_bit_set_bit by done.
      case_bool_decide as He; [subst k'; by right |].
      rewrite orb_false_r. by left.
  - split; cbn [remv_ scores_ suppressed_]; rewrite ?length_insert; auto.
Qed.

Lemma collect_block_rel mask coeffs thr i st j :
  row_rel mask i st (collect_block mask coeffs thr i st j).
Proof.
  unfold collect_block.
  assert (row_rel mask i st
            (foldl (collect_bit mask coeffs thr i j) st (seq 0 FLAG_WIDTH)))
    as Hsoft.
  { apply (foldl_rel _ _ (fun k => k < 64));
      [apply row_rel_refl | apply row_rel_trans | |].
    - intros s k Hk. by apply collect_bit_rel.
    - apply Forall_forall. intros k Hk. apply elem_of_seq in Hk.
      rewrite FLAG_WIDTH_eq in Hk. lia. }
  destruct Supression; [| done | done].
  split; cbn [remv_ scores_ suppressed_]; rewrite ?length_insert; try done.
  - intros b k Hk Hb. rewrite rd_insert.
    case_bool_decide as Hc; [| done]. destruct Hc as [-> _].
    rewrite test_bit_lor by done. by rewrite Hb.
  - intros b k Hk. rewrite rd_insert.
    case_bool_decide as Hc; [| by left]. destruct Hc as [-> _].
    rewrite test_bit_lor by done. intros Hb.
    apply orb_true_iff in Hb as [Hb | Hb]; [by left | by right].
Qed.

Lemma collect_blocks_rel mask coeffs thr i st l :
  row_rel mask i st (foldl (collect_block mask coeffs thr i) st l).
Proof.
  apply (foldl_rel _ _ (fun _ => True));
    [apply row_rel_refl | apply row_rel_trans | |].
  - intros s j _. apply collect_block_rel.
  - by apply Forall_forall.
Qed.

(** The accumulator bit of sorted position [q], and the bit row [i] of
    [mask] holds for it. *)
Definition acc_bit (remv : list bitvec_t) (q : nat) : bool :=
  test_bit (rd remv (q / 64)) (q mod 64).
Definition mask_bit (mask : list (list bitvec_t)) (i q : nat) : bool :=
  test_bit (get2 mask i (q / 64)) (q mod 64).

Lemma collect_upto_S order mask coeffs thr n st :
  collect_upto order mask coeffs thr (S n) st
  = collect_row order mask coeffs thr (size1 mask)
      (collect_upto order mask coeffs thr n st) n.
Proof. unfold collect_upto. by rewrite seq_S, foldl_snoc. Qed.

(** One round of the outer loop either marks position [i], or runs the
    steps of an unsuppressed row. *)
Lemma collect_row_cases order mask coeffs thr nb st i :
  (acc_bit (remv_ st) i = true /\
   collect_row order mask coeffs thr nb st i
   = mkCollectState (remv_ st) (scores_ st)
       (<[rd order i := true]> (suppressed_ st)))
  \/ (acc_bit (remv_ st) i = false /\
      collect_row order mask coeffs thr nb st i
      = foldl (collect_block mask coeffs thr i) st
          (seq (i / 64) (nb - i / 64))).
Proof.
  unfold collect_row, acc_bit.
  change (Nat.shiftr i FLAG_BITS) with (block_of i).
  change (Nat.land i (FLAG_WIDTH - 1)) with (lane_of i).
  rewrite block_of_div, lane_of_mod.
  destruct (test_bit _ _); [by left | by right].
Qed.

(** What the whole pass preserves from one moment to a later one. *)
Record pass_mono (st st' : CollectState) : Prop := mk_pass_mono {
  pm_remv_length : length (remv_ st') = length (remv_ st);
  pm_scores_length : length (scores_ st') = length (scores_ st);
  pm_suppressed_length : length (suppressed_ st') = length (suppressed_ st);
  pm_bits : forall b k, k < 64 ->
    test_bit (rd (remv_ st) b) k = true ->
    test_bit (rd (remv_ st') b) k = true;
  pm_flags : forall m,
    suppressed_ st !! m = Some true -> suppressed_ st' !! m = Some true
}.

Lemma pass_mono_refl st : pass_mono st st.
Proof. split; auto. Qed.

Lemma pass_mono_trans s1 s2 s3 :
  pass_mono s1 s2 -> pass_mono s2 s3 -> pass_mono s1 s3.
Proof.
  intros [H1 H2 H3 H4 H5] [G1 G2 G3 G4 G5]. split; try congruence; auto.
Qed.

Lemma row_rel_pass_mono mask i st st' : row_rel mask i st st' -> pass_mono st st'.
Proof.
  intros [H1 H2 H3 H4 H5]. split; auto; rewrite H1; auto.
Qed.

Lemma collect_row_mono order mask coeffs thr nb st i :
  pass_mono st (collect_row order mask coeffs thr nb st i).
Proof.
  destruct (collect_row_cases order mask coeffs thr nb st i)
    as [[_ ->] | [_ ->]].
  - split; cbn [remv_ scores_ suppressed_]; rewrite ?length_insert; auto.
    intros m Hm. destruct (decide (rd order i = m)) as [-> | Hne].
    + apply list_lookup_insert_eq. by eapply lookup_lt_Some.
    + by rewrite list_lookup_insert_ne.
  - eapply row_rel_pass_mono. apply collect_blocks_rel.
Qed.

Lemma collect_upto_mono order mask coeffs thr n n' st :
  n <= n' ->
  pass_mono (collect_upto order mask coeffs thr n st)
    (collect_upto order mask coeffs thr n' st).
Proof.
  induction 1 as [| n' Hle IH]; [apply pass_mono_refl |].
  rewrite collect_upto_S.
  eapply pass_mono_trans; [exact IH | apply collect_row_mono].
Qed.

Lemma acc_bit_mono st st' q :
  pass_mono st st' -> acc_bit (remv_ st) q = true -> acc_bit (remv_ st') q = true.
Proof.
  intros Hm. apply (pm_bits _ _ Hm). apply divmod_64.
Qed.

(** A bit of the accumulator was there at the start, or is a bit of the
    row of a position that was not suppressed when its turn came. *)
Lemma collect_upto_origin order mask coeffs thr n st b k :
  k < 64 ->
  test_bit (rd (remv_ (collect_upto order mask coeffs thr n st)) b) k = true ->
  test_bit (rd (remv_ st) b) k = true
  \/ exists i, i < n /\ test_bit (get2 mask i b) k = true
       /\ acc_bit (remv_ (collect_upto order mask coeffs thr i st)) i = false.
Proof.
  intros Hk. induction n as [| n IH]; [by left |].
  rewrite collect_upto_S.
  destruct (collect_row_cases order mask coeffs thr (size1 mask)
              (collect_upto order mask coeffs thr n st) n)
    as [[_ ->] | [Hfree ->]].
  - cbn [remv_]. intros Hb. destruct (IH Hb) as [? | (i & Hi & ?)]; [by left |].
    right. exists i. split; [lia | done].
  - intros Hb.
    destruct (rr_origin _ _ _ _ (collect_blocks_rel mask coeffs thr n _ _)
                b k Hk Hb) as [Hold | Hnew].
    + destruct (IH Hold) as [? | (i & Hi & ?)]; [by left |].
      right. exists i. split; [lia | done].
    + right. exists n. split; [lia | done].
Qed.

(** A flag is true when it was at the start, or was set in the round of a
    position found suppressed. *)
Lemma collect_upto_flags order mask coeffs thr n st m :
  suppressed_ (collect_upto order mask coeffs thr n st) !! m = Some true
  <-> suppressed_ st !! m = Some true
      \/ (m < length (suppressed_ st) /\
          exists p, p < n /\ rd order p = m /\
            acc_bit (remv_ (collect_upto order mask coeffs thr p st)) p = true).
Proof.
  induction n as [| n IH].
  - split; [by left |]. intros [? | (_ & p & Hp & _)]; [done | lia].
  - rewrite collect_upto_S.
    pose proof (pm_suppressed_length _ _
                  (collect_upto_mono order mask coeffs thr 0 n st ltac:(lia)))
      as Hlen.
    change (collect_upto order mask coeffs thr 0 st) with st in Hlen.
    destruct (collect_row_cases order mask coeffs thr (size1 mask)
                (collect_upto order mask coeffs thr n st) n)
      as [[Hset ->] | [Hfree ->]].
    + cbn [suppressed_]. split.
      * intros Hm. destruct (decide (rd order n = m)) as [He | Hne].
        -- right. split.
           ++ apply lookup_lt_Some in Hm. rewrite length_insert in Hm. lia.
           ++ exists n. split; [lia | done].
        -- rewrite list_lookup_insert_ne in Hm by done.
           apply IH in Hm as [? | (Hlt & p & Hp & ?)]; [by left |].
           right. split; [done |]. exists p. split; [lia | done].
      * intros Hm. destruct (decide (rd order n = m)) as [He | Hne].
        -- subst m. apply list_lookup_insert_eq. rewrite Hlen.
           destruct Hm as [Hm | [Hlt _]]; [by eapply lookup_lt_Some | done].
        -- rewrite list_lookup_insert_ne by done. apply IH.
           destruct Hm as [? | (Hlt & p & Hp & Ho & Hb)]; [by left |].
           right. split; [done |]. exists p. split; [| done].
           destruct (decide (p = n)) as [-> | ?]; [done | lia].
    + rewrite (rr_suppressed _ _ _ _ (collect_blocks_rel mask coeffs thr n _ _)).
      rewrite IH. split.
      * intros [? | (Hlt & p & Hp & ?)]; [by left |].
        right. split; [done |]. exists p. split; [lia | done].
      * intros [? | (Hlt & p & Hp & Ho & Hb)]; [by left |].
        right. split; [done |]. exists p. split; [| done].
        destruct (decide (p = n)) as [-> | ?]; [congruence | lia].
Qed.

(** When [mask] only holds bits strictly above the diagonal, the bit of
    position [q] is settled once the pass has reached [q]. *)
Definition upper_triangular (mask : list (list bitvec_t)) : Prop :=
  forall i b k, k < 64 -> test_bit (get2 mask i b) k = true -> i < b * 64 + k.

Lemma collect_upto_stable order mask coeffs thr st n q :
  upper_triangular mask -> q <= n ->
  acc_bit (remv_ (collect_upto order mask coeffs thr n st)) q
  = acc_bit (remv_ (collect_upto order mask coeffs thr q st)) q.
Proof.
  intros Htri. induction 1 as [| n Hle IH]; [done |].
  rewrite <- IH, collect_upto_S.
  destruct (divmod_64 q) as [Hq Hlt].
  destruct (collect_row_cases order mask coeffs thr (size1 mask)
              (collect_upto order mask coeffs thr n st) n)
    as [[_ ->] | [_ ->]]; [done |].
  pose proof (collect_blocks_rel mask coeffs thr n
                (collect_upto order mask coeffs thr n st)
                (seq (n / 64) (size1 mask - n / 64))) as Hrel.
  unfold acc_bit.
  destruct (test_bit (rd (remv_ (collect_upto order mask coeffs thr n st))
                        (q / 64)) (q mod 64)) eqn:Hold.
  - by apply (rr_keep _ _ _ _ Hrel).
  - apply not_true_is_false. intros Hnew.
    destruct (rr_origin _ _ _ _ Hrel _ _ Hlt Hnew) as [Hb | Hb]; [congruence |].
    apply Htri in Hb; lia.
Qed.

(** In HARD mode the round of an unsuppressed position [i] ORs the whole of
    row [i] into the accumulator, from the word of [i] onwards. *)
Lemma hard_row_complete order mask coeffs thr nb st i b k :
  Supression = HARD -> k < 64 ->
  acc_bit (remv_ st) i = false ->
  i / 64 <= b < nb -> b < length (remv_ st) ->
  test_bit (get2 mask i b) k = true ->
  test_bit (rd (remv_ (collect_row order mask coeffs thr nb st i)) b) k = true.
Proof.
  intros Hhard Hk Hfree Hb Hlen Hm.
  destruct (collect_row_cases order mask coeffs thr nb st i)
    as [[Hset _] | [_ ->]]; [congruence |].
  assert (b ∈ seq (i / 64) (nb - i / 64)) as Hin by (apply elem_of_seq; lia).
  apply list_elem_of_split in Hin as (l1 & l2 & ->).
  rewrite foldl_app. cbn [foldl].
  set (s1 := foldl (collect_block mask coeffs thr i) st l1).
  pose proof (collect_blocks_rel mask coeffs thr i st l1) as Hrel1.
  fold s1 in Hrel1.
  apply (rr_keep _ _ _ _ (collect_blocks_rel mask coeffs thr i _ l2)); [done |].
  unfold collect_block. rewrite Hhard. cbn [remv_].
  rewrite rd_insert, bool_decide_eq_true_2.
  - rewrite test_bit_lor by done. by rewrite Hm, orb_true_r.
  - split; [done |]. by rewrite (rr_remv_length _ _ _ _ Hrel1).
Qed.

(** ** Facts about the host-side tensor operations *)

Lemma insert_desc_perm scores i l : Permutation (insert_desc scores i l) (i :: l).
Proof.
  induction l as [| j l IH]; [done |]. simpl.
  destruct (scalar_lt _ _); [| done].
  rewrite IH. apply perm_swap.
Qed.

Lemma argsort_perm scores : Permutation (argsort scores) (seq 0 (length scores)).
Proof.
  unfold argsort. induction (seq 0 (length scores)) as [| i l IH]; [done |].
  simpl. rewrite insert_desc_perm. by constructor.
Qed.

(** [a] may come right before [b] in a descending order of [scores]. *)
Definition desc (scores : list Q) (a b : nat) : Prop :=
  (rd scores b <= rd scores a)%Q.

Lemma insert_desc_sorted scores i l :
  Sorted (desc scores) l -> Sorted (desc scores) (insert_desc scores i l).
Proof.
  induction l as [| j l IH]; intros Hs; simpl.
  - by repeat constructor.
  - destruct (scalar_lt (rd scores i) (rd scores j)) eqn:Hlt.
    + apply Sorted_inv in Hs as [Hs Hhd]. constructor; [by apply IH |].
      destruct l as [| j' l]; simpl.
      * constructor. apply scalar_lt_spec in Hlt. by apply Qlt_le_weak.
      * destruct (scalar_lt (rd scores i) (rd scores j')); constructor.
        -- by inversion Hhd.
        -- apply scalar_lt_spec in Hlt. by apply Qlt_le_weak.
    + constructor; [done |]. constructor. by apply scalar_lt_false.
Qed.

Lemma argsort_sorted scores : Sorted (desc scores) (argsort scores).
Proof.
  unfold argsort. induction (seq 0 (length scores)) as [| i l IH]; simpl.
  - constructor.
  - by apply insert_desc_sorted.
Qed.

Lemma Sorted_adjacent {A} (R : A -> A -> Prop) (l : list A) i a b :
  Sorted R l -> l !! i = Some a -> l !! S i = Some b -> R a b.
Proof.
  intros Hs. revert i. induction Hs as [| x l Hs IH Hhd]; intros i Ha Hb.
  - done.
  - destruct i as [| i]; simpl in *.
    + injection Ha as ->. destruct l as [| y l]; [done |].
      simpl in Hb. injection Hb as ->. by inversion Hhd.
    + by apply (IH i).
Qed.

(** A permutation of [0 .. n-1] read as a function on positions. *)
Record is_order (order : list nat) (n : nat) : Prop := mk_is_order {
  io_length : length order = n;
  io_range : forall p, p < n -> rd order p < n;
  io_inj : forall p q, p < n -> q < n -> rd order p = rd order q -> p = q;
  io_surj : forall m, m < n -> exists p, p < n /\ rd order p = m
}.

Lemma perm_is_order order n : Permutation order (seq 0 n) -> is_order order n.
Proof.
  intros Hp.
  assert (length order = n) as Hlen.
  { by rewrite (Permutation_length Hp), length_seq. }
  assert (NoDup order) as Hnd.
  { rewrite Hp. apply NoDup_seq. }
  assert (forall p, p < n -> order !! p = Some (rd order p)) as Hrd.
  { intros p Hp'. apply rd_lt. lia. }
  split.
  - done.
  - intros p Hp'. pose proof (Hrd p Hp') as Hl.
    apply list_elem_of_lookup_2 in Hl. revert Hl. generalize (rd order p).
    intros m Hl. rewrite Hp in Hl. apply elem_of_seq in Hl. lia.
  - intros p q Hp' Hq He.
    apply (NoDup_lookup order p q (rd order p)); [done | by apply Hrd |].
    rewrite He. by apply Hrd.
  - intros m Hm.
    assert (m ∈ order) as Hin by (rewrite Hp; apply elem_of_seq; lia).
    apply list_elem_of_lookup_1 in Hin as [p Hl]. exists p.
    split; [apply lookup_lt_Some in Hl; lia | by apply rd_lookup].
Qed.

Lemma argsort_is_order scores : is_order (argsort scores) (length scores).
Proof. apply perm_is_order, argsort_perm. Qed.







(** The positions a boolean mask selects. *)
Definition sel (mask : list bool) : list nat :=
  index (seq 0 (length mask)) mask.

Lemma index_fmap {A B} (f : A -> B) (t : list A) mask :
  index (f <$> t) mask = f <$> index t mask.
Proof.
  revert mask. induction t as [| x t IH]; intros [| [] mask]; simpl; try done.
  by rewrite IH.
Qed.

Lemma sel_cons b mask :
  sel (b :: mask) = (if b then [0] else []) ++ (S <$> sel mask).
Proof.
  unfold sel. simpl. rewrite <- fmap_S_seq, index_fmap. by destruct b.
Qed.

Lemma sel_spec mask m : m ∈ sel mask <-> mask !! m = Some true.
Proof.
  revert m. induction mask as [| b mask IH]; intros m.
  - unfold sel. simpl. split; [by intros ?%not_elem_of_nil | done].
  - rewrite sel_cons, elem_of_app, list_elem_of_fmap. split.
    + intros [H0 | (m' & -> & Hm')].
      * destruct b; [| by apply not_elem_of_nil in H0].
        by apply list_elem_of_singleton in H0 as ->.
      * simpl. by apply IH.
    + destruct m as [| m]; simpl.
      * intros [= ->]. left. apply list_elem_of_here.
      * intros Hm. right. exists m. split; [done | by apply IH].
Qed.

Lemma sel_NoDup mask : NoDup (sel mask).
Proof.
  induction mask as [| b mask IH]; [constructor |].
  rewrite sel_cons.
  assert (NoDup (S <$> sel mask)) as Hnd.
  { apply NoDup_fmap_2; [| done]. intros ? ?. lia. }
  destruct b; [| done]. simpl. constructor; [| done].
  rewrite list_elem_of_fmap. intros (? & ? & _). lia.
Qed.


Lemma index_sel {A} `{!Dflt A} (t : list A) mask :
  length t = length mask -> index t mask = rd t <$> sel mask.
Proof.
  revert mask. induction t as [| x t IH]; intros [| b mask] Hlen; try done.
  simpl in Hlen. rewrite sel_cons, fmap_app, <- list_fmap_compose.
  simpl. rewrite (IH mask) by lia.
  destruct b; done.
Qed.

Lemma index_zip {A B} (a : list A) (b : list B) mask :
  zip (index a mask) (index b mask) = index (zip a b) mask.
Proof.
  revert b mask.
  induction a as [| x a IH]; intros [| y b] [| [] mask]; simpl;
    rewrite ?zip_with_nil_r; try done.
  by rewrite IH.
Qed.


Lemma length_index_fmap {A} (t : list A) (f : A -> bool) :
  length (index t (f <$> t)) = length (List.filter f t).
Proof.
  induction t as [| x t IH]; [done |]. simpl.
  destruct (f x); simpl; by rewrite <- IH.
Qed.


(** The survivors of the pre-filter: the rows and scores [nms2d_cuda]
    hands to the kernels are the pairs with a score above the threshold. *)
Lemma masked_filter (boxes : list (list Q)) (scores : list Q) score_threshold :
  zip (boxes_masked boxes scores score_threshold)
      (scores_masked scores score_threshold)
  = List.filter (fun bs => scalar_lt score_threshold bs.2) (zip boxes scores).
Proof.
  unfold boxes_masked, scores_masked, score_mask. rewrite index_zip.
  revert boxes. induction scores as [| s scores IH]; intros [| b boxes];
    simpl; try done.
  rewrite IH. by destruct (scalar_lt score_threshold s).
Qed.

Lemma masked_length (boxes : list (list Q)) (scores : list Q) score_threshold :
  length boxes = length scores ->
  length (boxes_masked boxes scores score_threshold)
  = length (scores_masked scores score_threshold).
Proof.
  unfold boxes_masked, scores_masked, score_mask.
  revert boxes. induction scores as [| s scores IH]; intros [| b boxes] Hlen;
    simpl in *; try done.
  destruct (scalar_lt score_threshold s); simpl; [f_equal |]; apply IH; lia.
Qed.


(** ** The two phases together *)

(** The tensors of [nms2d_cuda_templated], called with [suppressed] zeroed
    as [nms2d_cuda] does, after [n] rounds of the collecting loop. *)
Definition reduction_upto (boxes : list (list Q)) (order : list nat)
    (scores : list Q) (iou_threshold score_threshold supression_param : Q)
    (n : nat) : CollectState :=
  let st := pairwise_phase boxes order iou_threshold supression_param in
  collect_upto order (mask_ st) (iou_coeffs_ st) score_threshold n
    (mkCollectState (zeros1 0%Z (divup (length boxes) FLAG_WIDTH)) scores
       (zeros1 false (length boxes))).

Lemma templated_reduction boxes order scores thr sthr p :
  nms2d_cuda_templated boxes order scores thr sthr p
    (zeros1 false (length boxes))
  = reduction_upto boxes order scores thr sthr p (length boxes).
Proof.
  unfold nms2d_cuda_templated, nms_collect_kernel, reduction_upto.
  by rewrite (proj1 (pairwise_mask_dims boxes order thr p)).
Qed.

Lemma pairwise_upper boxes order thr p :
  upper_triangular (mask_ (pairwise_phase boxes order thr p)).
Proof.
  intros i b k Hk. rewrite pairwise_mask_bit by done. unfold overlap.
  intros [Hr _]%andb_true_iff. apply bool_decide_eq_true in Hr. lia.
Qed.

Lemma pairwise_mask_bit_pos boxes order thr p i q :
  mask_bit (mask_ (pairwise_phase boxes order thr p)) i q
  = overlap boxes order thr i q.
Proof.
  unfold mask_bit. destruct (divmod_64 q) as [Hq Hlt].
  rewrite pairwise_mask_bit by done. by rewrite <- Hq.
Qed.

Lemma zeros1_bit nb b k : test_bit (rd (zeros1 0%Z nb) b) k = false.
Proof.
  unfold zeros1. rewrite rd_replicate.
  destruct (bool_decide (b < nb)); apply test_bit_0.
Qed.

Lemma reduction_lengths boxes order scores thr sthr p n :
  length (remv_ (reduction_upto boxes order scores thr sthr p n))
    = divup (length boxes) 64
  /\ length (scores_ (reduction_upto boxes order scores thr sthr p n))
    = length scores
  /\ length (suppressed_ (reduction_upto boxes order scores thr sthr p n))
    = length boxes.
Proof.
  unfold reduction_upto.
  set (st := pairwise_phase boxes order thr p).
  pose proof (collect_upto_mono order (mask_ st) (iou_coeffs_ st) sthr 0 n
                (mkCollectState (zeros1 0%Z (divup (length boxes) FLAG_WIDTH))
                   scores (zeros1 false (length boxes))) ltac:(lia))
    as [H1 H2 H3 _ _].
  rewrite H1, H2, H3. unfold collect_upto. cbn [seq foldl remv_ scores_ suppressed_].
  unfold zeros1. by rewrite !length_replicate, FLAG_WIDTH_eq.
Qed.

(** A set accumulator bit comes from an earlier, unsuppressed position
    that overlaps. *)
Lemma reduction_origin boxes order scores thr sthr p n q :
  acc_bit (remv_ (reduction_upto boxes order scores thr sthr p n)) q = true ->
  exists i, i < n /\ overlap boxes order thr i q = true
    /\ acc_bit (remv_ (reduction_upto boxes order scores thr sthr p i)) i = false.
Proof.
  unfold acc_bit at 1, reduction_upto. intros Hb.
  destruct (divmod_64 q) as [Hq Hlt].
  apply collect_upto_origin in Hb as [Hb | (i & Hi & Hm & Hfree)]; [| | done].
  - cbn [remv_] in Hb. by rewrite zeros1_bit in Hb.
  - exists i. split; [done |]. split; [| done].
    rewrite pairwise_mask_bit in Hm by done. by rewrite <- Hq in Hm.
Qed.

Lemma reduction_stable boxes order scores thr sthr p n q :
  q <= n ->
  acc_bit (remv_ (reduction_upto boxes order scores thr sthr p n)) q
  = acc_bit (remv_ (reduction_upto boxes order scores thr sthr p q)) q.
Proof.
  intros Hle. unfold reduction_upto.
  apply collect_upto_stable; [apply pairwise_upper | done].
Qed.

Lemma reduction_flags boxes order scores thr sthr p n m :
  suppressed_ (reduction_upto boxes order scores thr sthr p n) !! m = Some true
  <-> m < length boxes /\
      exists q, q < n /\ rd order q = m /\
        acc_bit (remv_ (reduction_upto boxes order scores thr sthr p q)) q = true.
Proof.
  unfold reduction_upto. rewrite collect_upto_flags. cbn [suppressed_].
  unfold zeros1. rewrite length_replicate. split.
  - intros [Hz | ?]; [| done]. by apply lookup_replicate_1 in Hz as [? _].
  - intros ?. by right.
Qed.

(** In HARD mode an unsuppressed position suppresses every later position
    it overlaps. *)
Lemma reduction_hard boxes order scores thr sthr p i q :
  Supression = HARD ->
  acc_bit (remv_ (reduction_upto boxes order scores thr sthr p i)) i = false ->
  overlap boxes order thr i q = true ->
  acc_bit (remv_ (reduction_upto boxes order scores thr sthr p q)) q = true.
Proof.
  intros Hhard Hfree Hov.
  assert (i < q < length boxes) as Hrange.
  { unfold overlap in Hov. apply andb_true_iff in Hov as [Hr _].
    by apply bool_decide_eq_true in Hr. }
  destruct (divmod_64 q) as [Hq Hlt]. destruct (divmod_64 i) as [Hi _].
  destruct (divup_64 (length boxes)) as [_ Hdiv].
  destruct (reduction_lengths boxes order scores thr sthr p i) as [Hlen _].
  assert (acc_bit (remv_ (reduction_upto boxes order scores thr sthr p (S i))) q
          = true) as Hset.
  { unfold reduction_upto in *. rewrite collect_upto_S. unfold acc_bit at 1.
    apply hard_row_complete; try done.
    - rewrite (size1_dims _ _ _ (pairwise_mask_dims boxes order thr p)) by lia.
      split; [| apply Hdiv; lia].
      apply Nat.Div0.div_le_mono. lia.
    - rewrite Hlen. apply Hdiv. lia.
    - rewrite pairwise_mask_bit by done. by rewrite <- Hq. }
  revert Hset. apply acc_bit_mono. unfold reduction_upto.
  apply collect_upto_mono. lia.
Qed.

(** ** The host functions over the store *)

Lemma store_lookup_old (h k : store) l t :
  h !! l = Some t -> (h ++ k) !! l = Some t.
Proof. intros Hl. rewrite lookup_app_l; [done | by eapply lookup_lt_Some]. Qed.

Lemma store_lookup_new (h k : store) j : (h ++ k) !! (length h + j) = k !! j.
Proof. rewrite lookup_app_r by lia. f_equal. lia. Qed.

Lemma store_write_new (h k : store) j t :
  j < length k ->
  write (length h + j) t (h ++ k) = Some (tt, h ++ <[j := t]> k).
Proof.
  intros Hj. unfold write. rewrite length_app, bool_decide_eq_true_2 by lia.
  by rewrite insert_app_r.
Qed.

Lemma store_alloc (h k : store) t :
  alloc t (h ++ k) = Some (length h + length k, h ++ (k ++ [t])).
Proof. unfold alloc. by rewrite length_app, <- app_assoc. Qed.

Lemma bind_bind {A B C} (m : St A) (f : A -> St B) (g : B -> St C) h :
  bind (bind m f) g h = bind m (fun x => bind (f x) g) h.
Proof. unfold bind. by destruct (m h) as [[x h'] |]. Qed.

Lemma bind_ret {A B} (x : A) (f : A -> St B) h : bind (ret x) f h = f x h.
Proof. done. Qed.

Lemma bind_alloc {B} t (f : handle -> St B) (h k : store) :
  bind (alloc t) f (h ++ k) = f (length h + length k) (h ++ (k ++ [t])).
Proof. unfold bind. by rewrite store_alloc. Qed.

Lemma bind_read_new {B} (f : tensor -> St B) (h k : store) j t :
  k !! j = Some t -> bind (read (length h + j)) f (h ++ k) = f t (h ++ k).
Proof. intros Hj. unfold bind, read. by rewrite store_lookup_new, Hj. Qed.

Lemma bind_write_new {B} (f : unit -> St B) (h k : store) j t :
  j < length k ->
  bind (write (length h + j) t) f (h ++ k) = f tt (h ++ <[j := t]> k).
Proof. intros Hj. unfold bind. by rewrite store_write_new. Qed.

(** One step of a store computation running on the caller's store [h]
    extended with the tensors allocated so far. *)
Ltac store_step :=
  first
    [ rewrite bind_bind
    | rewrite bind_ret
    | rewrite bind_alloc; cbn [length app Nat.add]
    | erewrite bind_read_new by reflexivity; cbv beta iota
    | rewrite bind_write_new by (cbn [length]; lia);
      cbn [insert list_insert]
    | rewrite store_write_new by (cbn [length]; lia);
      cbn [insert list_insert] ].

(** The store after a call of [nms2d_cuda]: the caller's store, followed
    by the eight tensors the call allocates. *)
Lemma nms2d_cuda_store_run boxes scores thr sthr p (h : store) bx sc :
  h !! boxes = Some (TScalar2 bx) -> h !! scores = Some (TScalar1 sc) ->
  let bm := boxes_masked bx sc sthr in
  let sm := scores_masked sc sthr in
  let P := pairwise_phase bm (argsort sm) thr p in
  let R := nms2d_cuda_run bx sc thr sthr p in
  nms2d_cuda_store boxes scores thr sthr p h
  = Some (length h + 4,
          h ++ [TBool1 (score_mask sc sthr); TScalar2 bm;
                TScalar1 (scores_ R); TIndex (argsort sm);
                TBool1 (suppressed_ R); TLong2 (mask_ P);
                TScalar2 (iou_coeffs_ P); TLong1 (remv_ R)]).
Proof.
  intros Hb Hs bm sm P R.
  unfold nms2d_cuda_store.
  unfold bind at 1. unfold read_scalar2 at 1, bind at 1, read at 1. rewrite Hb.
  unfold ret at 1.
  unfold bind at 1. unfold read_scalar1 at 1, bind at 1, read at 1. rewrite Hs.
  unfold ret at 1.
  rewrite <- (app_nil_r h) at 1.
  unfold nms2d_cuda_templated_store, launch_iou_store, launch_collect_store,
    read_scalar1, read_scalar2, read_long1, read_long2, read_index, read_bool1.
  repeat store_step.
  reflexivity.
Qed.

(** Nothing the caller could reach before the call is written by it. *)
Lemma nms2d_cuda_store_frame boxes scores thr sthr p (h : store) bx sc l :
  h !! boxes = Some (TScalar2 bx) -> h !! scores = Some (TScalar1 sc) ->
  l < length h ->
  exists r h',
    nms2d_cuda_store boxes scores thr sthr p h = Some (r, h')
    /\ h' !! l = h !! l
    /\ h' !! r = Some (TBool1 (nms2d_cuda bx sc thr sthr p)).
Proof.
  intros Hb Hs Hl. eexists _, _. split; [by apply nms2d_cuda_store_run |].
  split; [by rewrite lookup_app_l |].
  by rewrite store_lookup_new.
Qed.

Lemma run_reduction boxes scores thr sthr p :
  nms2d_cuda_run boxes scores thr sthr p
  = reduction_upto (boxes_masked boxes scores sthr)
      (argsort (scores_masked scores sthr)) (scores_masked scores sthr)
      thr sthr p (length (boxes_masked boxes scores sthr)).
Proof. unfold nms2d_cuda_run. apply templated_reduction. Qed.

Lemma masked_order boxes scores sthr :
  length boxes = length scores ->
  is_order (argsort (scores_masked scores sthr))
    (length (boxes_masked boxes scores sthr)).
Proof. intros Hlen. rewrite masked_length by done. apply argsort_is_order. Qed.

(** At the end of the pass the flag at [order[q]] is the accumulator bit
    of sorted position [q]. *)
Lemma reduction_flag_at boxes order scores thr sthr p q :
  is_order order (length boxes) -> q < length boxes ->
  rd (suppressed_ (reduction_upto boxes order scores thr sthr p (length boxes)))
     (rd order q)
  = acc_bit (remv_ (reduction_upto boxes order scores thr sthr p (length boxes)))
      q.
Proof.
  intros Ho Hq.
  set (R := reduction_upto boxes order scores thr sthr p (length boxes)).
  destruct (reduction_lengths boxes order scores thr sthr p (length boxes))
    as (_ & _ & Hlen). fold R in Hlen.
  pose proof (io_range _ _ Ho q Hq) as Hr.
  assert (suppressed_ R !! rd order q = Some (rd (suppressed_ R) (rd order q)))
    as Hl by (apply rd_lt; lia).
  pose proof (reduction_stable boxes order scores thr sthr p (length boxes) q
                ltac:(lia)) as Hst. fold R in Hst.
  destruct (acc_bit (remv_ R) q) eqn:Hacc.
  - apply (rd_lookup (suppressed_ R)). subst R. apply reduction_flags.
    split; [done |]. exists q. split; [done |]. split; [done |]. by rewrite <- Hst.
  - apply not_true_is_false. intros Ht. rewrite Ht in Hl.
    subst R. apply reduction_flags in Hl as (_ & q' & Hq' & He & Hb).
    apply (io_inj _ _ Ho) in He; [| done | done]. subst q'. congruence.
Qed.

(** *** Score decay *)

(** Coefficients in the unit interval. *)
Definition unit_coeffs (c : list (list Q)) : Prop :=
  forall i j, (0 <= get2 c i j <= 1)%Q.

(** An entry [m] of the score array that is not negative stays so and
    does not grow. *)
Definition decayed (m : nat) (st st' : CollectState) : Prop :=
  (0 <= rd (scores_ st) m)%Q ->
  (0 <= rd (scores_ st') m <= rd (scores_ st) m)%Q.

Lemma decayed_refl m st : decayed m st st.
Proof. intros Hn. split; [done | apply Qle_refl]. Qed.

Lemma decayed_trans m s1 s2 s3 :
  decayed m s1 s2 -> decayed m s2 s3 -> decayed m s1 s3.
Proof.
  intros H12 H23 Hn. destruct (H12 Hn) as [Hn2 Hle2].
  destruct (H23 Hn2) as [Hn3 Hle3]. split; [done |].
  eapply Qle_trans; [apply Hle3 | apply Hle2].
Qed.

Lemma all_zero_unit c : all_zero c -> unit_coeffs c.
Proof.
  intros Hz i j. rewrite (all_zero_get2 c i j Hz). split; [apply Qle_refl | done].
Qed.

Lemma decay_insert (scores : list Q) i2 c m :
  (0 <= c <= 1)%Q -> (0 <= rd scores m)%Q ->
  (0 <= rd (<[i2 := (rd scores i2 * c)%Q]> scores) m <= rd scores m)%Q.
Proof.
  intros Hc Hn. rewrite rd_insert. case_bool_decide as He.
  - destruct He as [-> _]. nra.
  - split; [done | apply Qle_refl].
Qed.

Lemma collect_bit_decayed m mask coeffs thr i j st k :
  unit_coeffs coeffs -> decayed m st (collect_bit mask coeffs thr i j st k).
Proof.
  intros Hu. unfold collect_bit.
  destruct (test_bit (get2 mask i j) k); [| apply decayed_refl].
  destruct (test_bit (rd (remv_ st) j) k); [apply decayed_refl |].
  intros Hn.
  destruct (scalar_lt _ thr); cbn [scores_]; by apply decay_insert.
Qed.

Lemma collect_block_decayed m mask coeffs thr i st j :
  unit_coeffs coeffs -> decayed m st (collect_block mask coeffs thr i st j).
Proof.
  intros Hu. unfold collect_block.
  assert (decayed m st
            (foldl (collect_bit mask coeffs thr i j) st (seq 0 FLAG_WIDTH)))
    as Hsoft.
  { apply (foldl_rel _ _ (fun _ => True));
      [apply decayed_refl | apply decayed_trans | | by apply Forall_forall].
    intros s k _. by apply collect_bit_decayed. }
  destruct Supression; [| done | done].
  intros Hn. cbn [scores_]. split; [done | apply Qle_refl].
Qed.

Lemma collect_row_decayed m order mask coeffs thr nb st i :
  unit_coeffs coeffs -> decayed m st (collect_row order mask coeffs thr nb st i).
Proof.
  intros Hu.
  destruct (collect_row_cases order mask coeffs thr nb st i)
    as [[_ ->] | [_ ->]].
  { intros Hn. cbn [scores_]. split; [done | apply Qle_refl]. }
  apply (foldl_rel _ _ (fun _ => True));
    [apply decayed_refl | apply decayed_trans | | by apply Forall_forall].
  intros s j _. by apply collect_block_decayed.
Qed.

Lemma collect_upto_decayed m order mask coeffs thr n st :
  unit_coeffs coeffs -> decayed m st (collect_upto order mask coeffs thr n st).
Proof.
  intros Hu. unfold collect_upto.
  apply (foldl_rel _ _ (fun _ => True));
    [apply decayed_refl | apply decayed_trans | | by apply Forall_forall].
  intros s i _. by apply collect_row_decayed.
Qed.

(** *** The coefficients the first kernel leaves *)

(** The factor the first kernel multiplies into a cell for a pair of IoU
    [v]: [1 - pow(iou, supression_param)] in LINEAR mode,
    [exp(-iou * iou / supression_param)] in GAUSSIAN mode; HARD mode
    multiplies nothing. *)
Definition decay_factor (v supression_param : Q) : Q :=
  match Supression with
  | LINEAR => (1 - pow v supression_param)%Q
  | GAUSSIAN => exp (- v * v / supression_param)%Q
  | HARD => 1%Q
  end.

Definition in_unit (x : Q) : Prop := (0 <= x <= 1)%Q.

(** Every factor the first kernel computes, one per pair of sorted
    positions [i < j], lies in the unit interval.  The rationals of this
    development have no infinity and no NaN: a factor that overflows in
    [scalar_t] (GAUSSIAN with a negative [supression_param]) is outside
    what this hypothesis admits. *)
Definition unit_decay (boxes : list (list Q)) (order : list nat)
    (supression_param : Q) : Prop :=
  forall i j, i < j < length boxes ->
    in_unit (decay_factor
               (iou Iou (sorted_box boxes order i) (sorted_box boxes order j))
               supression_param).

Definition unit_cells (c : list (list Q)) : Prop :=
  Forall (Forall in_unit) c.

Lemma iou_loop_body_coeffs bcur bb thr p idx acc i :
  (iou_loop_body bcur bb thr p idx acc i).2
  = match Supression with
    | HARD => acc.2
    | _ => set2 acc.2 idx i
             (get2 acc.2 idx i * decay_factor (iou Iou bcur (rd bb i)) p)%Q
    end.
Proof. unfold iou_loop_body, decay_factor. by destruct Supression. Qed.

Lemma in_unit_0 : in_unit 0.
Proof. split; [apply Qle_refl | done]. Qed.

Lemma in_unit_mult x y : in_unit x -> in_unit y -> in_unit (x * y).
Proof. unfold in_unit. intros Hx Hy. nra. Qed.

Lemma unit_cells_zeros2 r c : unit_cells (zeros2 0%Q r c).
Proof. apply Forall_replicate, Forall_replicate, in_unit_0. Qed.

Lemma unit_cells_get2 c i j : unit_cells c -> in_unit (get2 c i j).
Proof.
  intros Hc. unfold get2, rd.
  destruct (c !! i) as [row |] eqn:Hrow; simpl; [| apply in_unit_0].
  pose proof (proj1 (Forall_lookup _ _) Hc i row Hrow) as Hz.
  destruct (row !! j) as [x |] eqn:Hx; simpl; [| apply in_unit_0].
  exact (proj1 (Forall_lookup _ _) Hz j x Hx).
Qed.

Lemma unit_cells_set2 c i j v : unit_cells c -> in_unit v -> unit_cells (set2 c i j v).
Proof.
  intros Hc Hv. unfold set2. apply Forall_alter; [done |].
  intros row _ Hrow. by apply Forall_insert.
Qed.

Lemma unit_cells_coeffs c : unit_cells c -> unit_coeffs c.
Proof. intros Hc i j. by apply unit_cells_get2. Qed.

(** A cell in the unit interval multiplied by factors of the unit interval
    stays there, whatever it started from. *)
Lemma iou_loop_coeffs_unit bcur bb thr p idx l acc :
  Forall (fun i => in_unit (decay_factor (iou Iou bcur (rd bb i)) p)) l ->
  unit_cells acc.2 ->
  unit_cells (foldl (iou_loop_body bcur bb thr p idx) acc l).2.
Proof.
  revert acc. induction l as [| i l IH]; intros acc Hl Hu; [done |].
  inversion Hl as [| ? ? Hi Hl']; subst.
  cbn [foldl]. apply IH; [done |]. rewrite iou_loop_body_coeffs.
  destruct Supression; [done | |];
    (apply unit_cells_set2; [done |]);
    (apply in_unit_mult; [by apply unit_cells_get2 | done]).
Qed.

Lemma thread_coeffs_unit boxes order thr p y x t st :
  unit_decay boxes order p ->
  unit_cells (iou_coeffs_ st) ->
  unit_cells (iou_coeffs_ (nms2d_iou_kernel boxes order thr p y x t st)).
Proof.
  intros Hd Hu. unfold nms2d_iou_kernel. rewrite !shiftl_mul, FLAG_WIDTH_eq.
  case_bool_decide as Hyx; [done |].
  case_bool_decide as Ht; [| done].
  cbn [iou_coeffs_]. apply iou_loop_coeffs_unit; [| done].
  apply Forall_forall. intros i Hi. apply elem_of_seq in Hi.
  rewrite rd_fmap_seq by (case_bool_decide; lia).
  apply (Hd (y * 64 + t) (x * 64 + i)).
  case_bool_decide; lia.
Qed.

Lemma pairwise_coeffs_unit boxes order thr p :
  unit_decay boxes order p ->
  unit_cells (iou_coeffs_ (pairwise_phase boxes order thr p)).
Proof.
  intros Hd. unfold pairwise_phase, launch_nms2d_iou_kernel.
  set (st0 := mkIouState _ _).
  assert (unit_cells (iou_coeffs_ st0)) as Hu.
  { subst st0. cbn [iou_coeffs_]. destruct Supression; apply unit_cells_zeros2. }
  clearbody st0. revert st0 Hu.
  induction (grid (divup (length boxes) FLAG_WIDTH)) as [| [[y x] t] ts IH];
    intros st0 Hu; [done |].
  cbn [foldl]. apply IH. by apply thread_coeffs_unit.
Qed.

(** *** Running HARD suppression on what it kept *)

(** In HARD mode, of two positions whose shapes are both kept, the earlier
    does not overlap the later beyond the threshold. *)
Lemma hard_kept_positions boxes order scores thr sthr p q q' :
  Supression = HARD -> is_order order (length boxes) ->
  let F :=
    suppressed_ (reduction_upto boxes order scores thr sthr p (length boxes)) in
  q < q' < length boxes ->
  rd F (rd order q) = false -> rd F (rd order q') = false ->
  scalar_lt thr (iou Iou (sorted_box boxes order q) (sorted_box boxes order q'))
  = false.
Proof.
  intros Hhard Ho F Hq HF HF'. subst F.
  rewrite reduction_flag_at,
    (reduction_stable _ _ _ _ _ _ (length boxes) q) in HF by (done || lia).
  rewrite reduction_flag_at,
    (reduction_stable _ _ _ _ _ _ (length boxes) q') in HF' by (done || lia).
  destruct (overlap boxes order thr q q') eqn:Hov.
  - rewrite (reduction_hard boxes order scores thr sthr p q q') in HF'; done.
  - unfold overlap in Hov. by rewrite bool_decide_eq_true_2 in Hov.
Qed.

(** With a symmetric IoU, no two kept shapes overlap beyond the threshold,
    whichever comes first. *)
Lemma hard_kept_pairwise boxes order scores thr sthr p m m' :
  Supression = HARD ->
  (forall a b, (iou Iou a b == iou Iou b a)%Q) ->
  is_order order (length boxes) ->
  let F :=
    suppressed_ (reduction_upto boxes order scores thr sthr p (length boxes)) in
  m < length boxes -> m' < length boxes -> m <> m' ->
  rd F m = false -> rd F m' = false ->
  scalar_lt thr (iou Iou (rd boxes m) (rd boxes m')) = false.
Proof.
  intros Hhard Hsym Ho F Hm Hm' Hne HF HF'. subst F.
  destruct (io_surj _ _ Ho m Hm) as (q & Hq & Hoq).
  destruct (io_surj _ _ Ho m' Hm') as (q' & Hq' & Hoq').
  rewrite <- Hoq in HF. rewrite <- Hoq' in HF'.
  destruct (decide (q < q')) as [Hlt | Hge].
  - rewrite <- Hoq, <- Hoq'.
    by apply (hard_kept_positions boxes order scores thr sthr p q q').
  - assert (q' < q) as Hlt.
    { destruct (decide (q = q')) as [-> | ?]; [congruence | lia]. }
    rewrite (scalar_lt_comp _ _ _ (Hsym _ _)). rewrite <- Hoq, <- Hoq'.
    by apply (hard_kept_positions boxes order scores thr sthr p q' q).
Qed.

(** Without any overlapping pair the pass sets no flag. *)
Lemma reduction_no_overlap boxes order scores thr sthr p n :
  (forall i j, overlap boxes order thr i j = false) ->
  suppressed_ (reduction_upto boxes order scores thr sthr p n)
  = replicate (length boxes) false.
Proof.
  intros Hno.
  destruct (reduction_lengths boxes order scores thr sthr p n)
    as (_ & _ & Hlen).
  apply list_eq. intros m.
  destruct (decide (m < length boxes)) as [Hm | Hm].
  - rewrite lookup_replicate_2 by done.
    destruct (suppressed_ (reduction_upto boxes order scores thr sthr p n) !! m)
      as [[] |] eqn:Hl; [| done |].
    + apply reduction_flags in Hl as (_ & q & _ & _ & Hb).
      apply reduction_origin in Hb as (i & _ & Hov & _).
      by rewrite Hno in Hov.
    + apply lookup_ge_None in Hl. lia.
  - rewrite (proj1 (lookup_replicate_None _ _ _)) by lia.
    apply lookup_ge_None. lia.
Qed.

Lemma rd_fmap {A B} `{!Dflt A} `{!Dflt B} (f : A -> B) (l : list A) i :
  i < length l -> rd (f <$> l) i = f (rd l i).
Proof.
  intros Hi. apply rd_lookup. by rewrite list_lookup_fmap, (rd_lt l i Hi).
Qed.


Lemma index_length_eq {A B} (a : list A) (b : list B) mask :
  length a = length b -> length (index a mask) = length (index b mask).
Proof.
  revert b mask. induction a as [| x a IH]; intros [| y b] [| [] mask] Hlen;
    simpl in *; try done; try (f_equal; apply IH; lia); apply IH; lia.
Qed.

(** A kept shape, read through the selection of the kept ones. *)
Lemma kept_lookup (F : list bool) x :
  x < length (sel (negb <$> F)) ->
  let m := rd (sel (negb <$> F)) x in
  m < length F /\ rd F m = false.
Proof.
  intros Hx m.
  assert (m ∈ sel (negb <$> F)) as Hin.
  { apply list_elem_of_lookup_2 with x. by apply rd_lt. }
  apply sel_spec in Hin. rewrite list_lookup_fmap in Hin.
  destruct (F !! m) as [f |] eqn:Hl; [| done].
  simpl in Hin. injection Hin as Hf. apply negb_true_iff in Hf. subst f.
  split; [by eapply lookup_lt_Some | by apply rd_lookup].
Qed.

(** With a symmetric IoU, a HARD run on the kept shapes sets no flag
    whatever order the second sort settles on for equal scores. *)
Lemma hard_rerun_any_order boxes order scores thr sthr p order2 scores2 :
  Supression = HARD ->
  (forall a b, (iou Iou a b == iou Iou b a)%Q) ->
  is_order order (length boxes) ->
  let F :=
    suppressed_ (reduction_upto boxes order scores thr sthr p (length boxes)) in
  let boxes2 := index boxes (negb <$> F) in
  is_order order2 (length boxes2) ->
  suppressed_ (reduction_upto boxes2 order2 scores2 thr sthr p (length boxes2))
  = replicate (length boxes2) false.
Proof.
  intros Hhard Hsym Ho F boxes2 Ho2.
  assert (length F = length boxes) as HlenF by apply reduction_lengths.
  assert (boxes2 = rd boxes <$> sel (negb <$> F)) as Hsel.
  { subst boxes2. apply index_sel. by rewrite length_fmap. }
  assert (length boxes2 = length (sel (negb <$> F))) as Hk.
  { by rewrite Hsel, length_fmap. }
  apply reduction_no_overlap. intros i j.
  destruct (overlap boxes2 order2 thr i j) eqn:Hov; [exfalso | done].
  unfold overlap in Hov. apply andb_true_iff in Hov as [Hr Hlt].
  apply bool_decide_eq_true in Hr.
  pose proof (io_range _ _ Ho2 i ltac:(lia)) as Hx.
  pose proof (io_range _ _ Ho2 j ltac:(lia)) as Hx'.
  assert (rd order2 i <> rd order2 j) as Hxne.
  { intros He. apply (io_inj _ _ Ho2) in He; lia. }
  unfold sorted_box in Hlt. rewrite Hsel in Hlt.
  rewrite !rd_fmap in Hlt by lia.
  destruct (kept_lookup F (rd order2 i) ltac:(lia)) as [Hm HFm].
  destruct (kept_lookup F (rd order2 j) ltac:(lia)) as [Hm' HFm'].
  rewrite (hard_kept_pairwise boxes order scores thr sthr p _ _ Hhard Hsym Ho)
    in Hlt; [done | lia | lia | | done | done].
  intros He. apply Hxne.
  apply (NoDup_lookup (sel (negb <$> F)) _ _
           (rd (sel (negb <$> F)) (rd order2 i)));
    [apply sel_NoDup | apply rd_lt; lia | rewrite He; apply rd_lt; lia].
Qed.

(** ** The specification, property by property *)

(** C5.  After the pairwise phase, in every mode, a bit of row [i] of the
    overlap bit matrix is set for the sorted position [j = 64 b + k] only
    if [j] is strictly after [i] and [IoU(i, j) > iou_threshold]; every bit
    on or below the diagonal ([j <= i]) is zero. *)
Theorem overlap_bits_strictly_upper
    (boxes : list (list Q)) (order : list nat)
    (iou_threshold supression_param : Q) (i b k : nat) :
  let mask := mask_ (pairwise_phase boxes order iou_threshold supression_param) in
  (test_bit (get2 mask i b) k = true ->
   i < b * 64 + k /\
   (iou_threshold
    < iou Iou (sorted_box boxes order i) (sorted_box boxes order (b * 64 + k)))%Q)
  /\ (b * 64 + k <= i -> test_bit (get2 mask i b) k = false).
Proof.
  intros mask. subst mask. split.
  - intros Hb. pose proof (test_bit_true_lt _ _ Hb) as Hk.
    rewrite pairwise_mask_bit in Hb by done. unfold overlap in Hb.
    apply andb_true_iff in Hb as [Hr Hlt].
    apply bool_decide_eq_true in Hr. apply scalar_lt_spec in Hlt.
    split; [lia | done].
  - intros Hle. destruct (decide (k < 64)) as [Hk | Hk].
    + rewrite pairwise_mask_bit by done. unfold overlap.
      rewrite bool_decide_eq_false_2; [done | lia].
    + apply test_bit_high. lia.
Qed.

(** What "never cleared" means between two moments of the pass: every
    accumulator bit that is set stays set, and every flag that is true
    stays true. *)
Definition never_cleared (st st' : CollectState) : Prop :=
  (forall b k, test_bit (rd (remv_ st) b) k = true ->
               test_bit (rd (remv_ st') b) k = true)
  /\ (forall m, suppressed_ st !! m = Some true ->
                suppressed_ st' !! m = Some true).

Lemma pass_mono_never_cleared st st' : pass_mono st st' -> never_cleared st st'.
Proof.
  intros Hm. split; [| apply (pm_flags _ _ Hm)].
  intros b k Hb. apply (pm_bits _ _ Hm); [| done].
  by apply test_bit_true_lt in Hb.
Qed.

(** C6.  Throughout the sequential reduction, in every mode and from any
    starting state, accumulator bits are only set and flags only go from
    false to true: this holds from any round [n] of the outer loop to any
    later round [n'], and across each step of the two inner loops. *)
Theorem suppression_never_cleared
    (order : list nat) (mask : list (list bitvec_t)) (coeffs : list (list Q))
    (score_threshold : Q) (st : CollectState) (n n' : nat) :
  n <= n' ->
  never_cleared (collect_upto order mask coeffs score_threshold n st)
    (collect_upto order mask coeffs score_threshold n' st)
  /\ (forall s i j,
        never_cleared s (collect_block mask coeffs score_threshold i s j))
  /\ (forall s i j k, k < FLAG_WIDTH ->
        never_cleared s (collect_bit mask coeffs score_threshold i j s k)).
Proof.
  intros Hle. split; [| split].
  - by apply pass_mono_never_cleared, collect_upto_mono.
  - intros s i j. eapply pass_mono_never_cleared, row_rel_pass_mono.
    apply collect_block_rel.
  - intros s i j k Hk. eapply pass_mono_never_cleared, row_rel_pass_mono.
    apply collect_bit_rel. by rewrite FLAG_WIDTH_eq in Hk.
Qed.

(** C4.  The shapes that enter the two kernels are exactly the pairs with
    a score strictly above [score_threshold], visited in an order of
    non-increasing score, and the returned flag vector has one entry per
    survivor, not one per input shape.  With [bm], [sm] the surviving
    shapes and scores and [order] the argsort of [sm]:
    - [bm], [sm] are the input filtered by [score > score_threshold], and
      [order] is a permutation of the survivors' indices along which the
      scores do not increase;
    - the working tensors at the end are those of the dispatched call on
      [bm], [order], [sm] and a zeroed flag vector of the survivors'
      length, i.e. of one round of the second kernel per survivor;
    - the words the first kernel writes for this call have bit [k] of word
      [b] in row [i] set exactly when [i < 64 b + k] are sorted positions
      of survivors with an IoU above [iou_threshold];
    - a returned flag at [order[q]] is set only if an earlier sorted
      position holds an unflagged survivor with an IoU above the threshold
      with the survivor at [q], and in HARD mode whenever one does;
    - the returned vector is as long as the survivors are many. *)
Theorem prefilter_order_and_output_length
    (boxes : list (list Q)) (scores : list Q)
    (iou_threshold score_threshold supression_param : Q) :
  length boxes = length scores ->
  let bm := boxes_masked boxes scores score_threshold in
  let sm := scores_masked scores score_threshold in
  let order := argsort sm in
  let R :=
    nms2d_cuda_run boxes scores iou_threshold score_threshold
      supression_param in
  let F :=
    nms2d_cuda boxes scores iou_threshold score_threshold supression_param in
  zip bm sm
  = List.filter (fun bs => scalar_lt score_threshold bs.2) (zip boxes scores)
  /\ Permutation order (seq 0 (length sm))
  /\ (forall i, S i < length sm ->
        (rd sm (rd order (S i)) <= rd sm (rd order i))%Q)
  /\ R = nms2d_cuda_templated bm order sm iou_threshold score_threshold
           supression_param (zeros1 false (length bm))
  /\ R = reduction_upto bm order sm iou_threshold score_threshold
           supression_param (length bm)
  /\ (forall i b k, k < 64 ->
        test_bit
          (get2 (mask_ (pairwise_phase bm order iou_threshold supression_param))
             i b) k = true
        <-> i < b * 64 + k < length bm
            /\ (iou_threshold
                < iou Iou (sorted_box bm order i)
                    (sorted_box bm order (b * 64 + k)))%Q)
  /\ (forall q, q < length bm ->
        rd F (rd order q) = true ->
        exists i, i < q /\ rd F (rd order i) = false
          /\ (iou_threshold
              < iou Iou (sorted_box bm order i) (sorted_box bm order q))%Q)
  /\ (Supression = HARD ->
      forall i q, i < q < length bm ->
        rd F (rd order i) = false ->
        (iou_threshold
         < iou Iou (sorted_box bm order i) (sorted_box bm order q))%Q ->
        rd F (rd order q) = true)
  /\ length F = length (List.filter (scalar_lt score_threshold) scores).
Proof.
  intros Hlen bm sm order R F.
  pose proof (masked_order boxes scores score_threshold Hlen) as Ho.
  fold bm sm order in Ho.
  assert (R = reduction_upto bm order sm iou_threshold score_threshold
                supression_param (length bm)) as HR by apply run_reduction.
  assert (F = suppressed_ (reduction_upto bm order sm iou_threshold
                             score_threshold supression_param (length bm)))
    as HF by (subst F; unfold nms2d_cuda; by rewrite run_reduction).
  split; [apply masked_filter |].
  split; [apply argsort_perm |].
  split.
  { intros i Hi.
    pose proof (argsort_is_order sm) as [Hl _ _ _].
    apply (Sorted_adjacent (desc sm) order i); [apply argsort_sorted | |];
      apply rd_lt; fold order in Hl; lia. }
  split; [done |].
  split; [done |].
  split.
  { intros i b k Hk. rewrite pairwise_mask_bit by done. unfold overlap.
    by rewrite andb_true_iff, bool_decide_eq_true, scalar_lt_spec. }
  split.
  { intros q Hq Hflag. rewrite HF in Hflag.
    rewrite reduction_flag_at in Hflag by done.
    apply reduction_origin in Hflag as (i & Hi & Hov & Hfree).
    unfold overlap in Hov. apply andb_true_iff in Hov as [Hr Hlt].
    apply bool_decide_eq_true in Hr.
    exists i. split; [lia |]. split; [| by apply scalar_lt_spec].
    rewrite HF, reduction_flag_at by (done || lia).
    by rewrite reduction_stable by lia. }
  split.
  { intros Hhard i q Hiq Hfree Hlt.
    rewrite HF in Hfree. rewrite reduction_flag_at in Hfree by (done || lia).
    rewrite reduction_stable in Hfree by lia.
    rewrite HF, reduction_flag_at by (done || lia).
    rewrite reduction_stable by lia.
    apply (reduction_hard bm order sm iou_threshold score_threshold
             supression_param i q); [done | done |].
    unfold overlap. rewrite bool_decide_eq_true_2 by lia.
    by apply scalar_lt_spec. }
  rewrite HF.
  destruct (reduction_lengths bm order sm iou_threshold score_threshold
              supression_param (length bm)) as (_ & _ & ->).
  subst bm. rewrite masked_length by done.
  unfold scores_masked, score_mask. apply length_index_fmap.
Qed.

(** C10.  A call of [nms2d_cuda] leaves every tensor of the caller's store
    as it was, its [boxes] and [scores] among them: the masked copies are
    new tensors, and the scores the second kernel decays are those of the
    new tensor [scores_masked]. *)
Theorem caller_tensors_unchanged
    (boxes scores : handle) (iou_threshold score_threshold supression_param : Q)
    (h : store) (bx : list (list Q)) (sc : list Q) :
  h !! boxes = Some (TScalar2 bx) -> h !! scores = Some (TScalar1 sc) ->
  exists (suppressed : handle) (h' : store),
    nms2d_cuda_store boxes scores iou_threshold score_threshold
      supression_param h = Some (suppressed, h')
    /\ h' !! boxes = Some (TScalar2 bx)
    /\ h' !! scores = Some (TScalar1 sc)
    /\ (forall l, l < length h -> h' !! l = h !! l)
    /\ h' !! (length h + 1)
       = Some (TScalar2 (boxes_masked bx sc score_threshold))
    /\ h' !! (length h + 2)
       = Some (TScalar1
                 (scores_ (nms2d_cuda_run bx sc iou_threshold score_threshold
                             supression_param)))
    /\ h' !! suppressed
       = Some (TBool1 (nms2d_cuda bx sc iou_threshold score_threshold
                         supression_param)).
Proof.
  intros Hb Hs. eexists _, _.
  split; [by apply nms2d_cuda_store_run |].
  split; [by apply store_lookup_old |].
  split; [by apply store_lookup_old |].
  split; [intros l Hl; by rewrite lookup_app_l |].
  by rewrite !store_lookup_new.
Qed.

(** C3, as the code has it.  The returned flags are keyed by position in
    the score-filtered tensors, through [order]: in every mode, the entry
    at [order[i]] is true exactly when the accumulator bit of sorted
    position [i] is set when the pass ends. *)
Theorem flags_keyed_through_order
    (boxes : list (list Q)) (scores : list Q)
    (iou_threshold score_threshold supression_param : Q) (i : nat) :
  length boxes = length scores ->
  i < length (boxes_masked boxes scores score_threshold) ->
  let order := argsort (scores_masked scores score_threshold) in
  rd (nms2d_cuda boxes scores iou_threshold score_threshold supression_param)
     (rd order i)
  = acc_bit
      (remv_ (nms2d_cuda_run boxes scores iou_threshold score_threshold
                supression_param)) i.
Proof.
  intros Hlen Hi order. unfold nms2d_cuda. rewrite run_reduction.
  apply reduction_flag_at; [by apply masked_order | done].
Qed.

(** C7.  In every mode, a surviving shape whose IoU with every other
    surviving shape is at most [iou_threshold] is not suppressed: its flag
    in the output is false.  [m] is the shape's position among the
    survivors. *)
Theorem isolated_shape_not_suppressed
    (boxes : list (list Q)) (scores : list Q)
    (iou_threshold score_threshold supression_param : Q) (m : nat) :
  length boxes = length scores ->
  let bm := boxes_masked boxes scores score_threshold in
  m < length bm ->
  (forall m', m' < length bm -> m' <> m ->
     (iou Iou (rd bm m') (rd bm m) <= iou_threshold)%Q) ->
  nms2d_cuda boxes scores iou_threshold score_threshold supression_param !! m
  = Some false.
Proof.
  intros Hlen bm Hm Hiso. unfold nms2d_cuda. rewrite run_reduction. fold bm.
  set (sm := scores_masked scores score_threshold).
  set (order := argsort sm).
  set (R := reduction_upto bm order sm iou_threshold score_threshold
              supression_param (length bm)).
  pose proof (masked_order boxes scores score_threshold Hlen) as Ho.
  fold bm sm order in Ho.
  destruct (reduction_lengths bm order sm iou_threshold score_threshold
              supression_param (length bm)) as (_ & _ & HlenR). fold R in HlenR.
  destruct (suppressed_ R !! m) as [[] |] eqn:Hl; [| done |].
  - exfalso. subst R. apply reduction_flags in Hl as (_ & q & Hq & Hoq & Hb).
    apply reduction_origin in Hb as (i & Hi & Hov & _).
    unfold overlap in Hov. apply andb_true_iff in Hov as [_ Hlt].
    apply scalar_lt_spec in Hlt. unfold sorted_box in Hlt. rewrite Hoq in Hlt.
    apply (Qlt_not_le _ _ Hlt). apply Hiso.
    + apply (io_range _ _ Ho). lia.
    + intros He. rewrite <- Hoq in He.
      apply (io_inj _ _ Ho) in He; lia.
  - apply lookup_ge_None in Hl. lia.
Qed.

(** C9, as the code has it.  When every factor the first kernel computes
    for the surviving shapes lies in the unit interval, every entry of the
    working score array that is not negative before the computation is,
    when the computation ends, at most what it was before.  The factors
    are [1 - pow(iou, supression_param)] in LINEAR mode and
    [exp(-iou * iou / supression_param)] in GAUSSIAN mode. *)
Theorem decay_never_raises_score
    (boxes : list (list Q)) (scores : list Q)
    (iou_threshold score_threshold supression_param : Q) (m : nat) :
  unit_decay (boxes_masked boxes scores score_threshold)
    (argsort (scores_masked scores score_threshold)) supression_param ->
  (0 <= rd (scores_masked scores score_threshold) m)%Q ->
  (rd (scores_ (nms2d_cuda_run boxes scores iou_threshold score_threshold
                  supression_param)) m
   <= rd (scores_masked scores score_threshold) m)%Q.
Proof.
  intros Hdecay Hpos. rewrite run_reduction. unfold reduction_upto.
  set (bm := boxes_masked boxes scores score_threshold) in *.
  set (sm := scores_masked scores score_threshold) in *.
  set (P := pairwise_phase bm (argsort sm) iou_threshold supression_param).
  set (st0 := mkCollectState _ sm _).
  assert (unit_coeffs (iou_coeffs_ P)) as Hu.
  { by apply unit_cells_coeffs, pairwise_coeffs_unit. }
  by destruct (collect_upto_decayed m (argsort sm) (mask_ P) (iou_coeffs_ P)
                 score_threshold (length bm) st0 Hu Hpos) as [_ Hle].
Qed.


(** ** Further properties of the kernels *)

(** *** The pairwise kernel *)

(** X1.  After the pairwise phase, bit [k] of word [b] in row [i] of the
    bit matrix is set exactly when the sorted position [64 b + k] is a
    shape strictly after [i] whose IoU with [i] exceeds the threshold: no
    qualifying pair is missed. *)
Theorem overlap_bit_exact
    (boxes : list (list Q)) (order : list nat)
    (iou_threshold supression_param : Q) (i b k : nat) :
  k < 64 ->
  let mask := mask_ (pairwise_phase boxes order iou_threshold supression_param) in
  test_bit (get2 mask i b) k = true
  <-> i < b * 64 + k < length boxes
      /\ (iou_threshold
          < iou Iou (sorted_box boxes order i)
              (sorted_box boxes order (b * 64 + k)))%Q.
Proof.
  intros Hk mask. subst mask. rewrite pairwise_mask_bit by done.
  unfold overlap. by rewrite andb_true_iff, bool_decide_eq_true, scalar_lt_spec.
Qed.

(** X13.  Raising the IoU threshold can only clear bits of the bit matrix:
    a pair marked as overlapping at a threshold is marked at every lower
    threshold. *)
Theorem overlap_bits_antitone_in_threshold
    (boxes : list (list Q)) (order : list nat)
    (iou_threshold iou_threshold' supression_param : Q) (i b k : nat) :
  (iou_threshold <= iou_threshold')%Q ->
  test_bit
    (get2 (mask_ (pairwise_phase boxes order iou_threshold' supression_param))
       i b) k = true ->
  test_bit
    (get2 (mask_ (pairwise_phase boxes order iou_threshold supression_param))
       i b) k = true.
Proof.
  intros Hle Hb. pose proof (test_bit_true_lt _ _ Hb) as Hk.
  rewrite pairwise_mask_bit in * by done. unfold overlap in *.
  apply andb_true_iff in Hb as [Hr Hlt]. rewrite Hr. simpl.
  apply scalar_lt_spec. apply scalar_lt_spec in Hlt.
  by eapply Qle_lt_trans.
Qed.

(** The words of the bit matrix in closed form. *)
Lemma pairwise_mask_word boxes order thr p i b :
  get2 (mask_ (pairwise_phase boxes order thr p)) i b
  = if bool_decide (i < length boxes /\ b < divup (length boxes) 64
                    /\ i / 64 <= b)
    then thread_flag boxes order thr (i / 64) b (i mod 64)
    else 0%Z.
Proof.
  destruct (divup_64 (length boxes)) as [_ Hdiv].
  destruct (decide (i < length boxes /\ b < divup (length boxes) 64))
    as [[Hi Hb] | Hout].
  - unfold pairwise_phase, launch_nms2d_iou_kernel. rewrite FLAG_WIDTH_eq.
    rewrite (launch_mask_get _ _ _ _ (divup (length boxes) 64));
      [| apply dims_zeros2 | done | done].
    cbn [mask_].
    change (zeros2 0%Z) with (zeros2 (A:=Z) dflt). rewrite get2_zeros2.
    apply (f_equal (fun c : bool => if c then _ else _)).
    apply bool_decide_ext. rewrite grid_elem.
    pose proof (Hdiv i Hi). destruct (divmod_64 i). lia.
  - rewrite (get2_outside _ _ _ _ _ (pairwise_mask_dims boxes order thr p))
      by lia.
    rewrite bool_decide_eq_false_2; [done | lia].
Qed.

Lemma dims_get2_ext {A} `{!Dflt A} (t t' : list (list A)) r c :
  dims t r c -> dims t' r c ->
  (forall i j, get2 t i j = get2 t' i j) -> t = t'.
Proof.
  intros Hd Hd' Hget. apply list_eq. intros i.
  destruct (decide (i < r)) as [Hi | Hi].
  - rewrite (rd_lt t i), (rd_lt t' i) by (destruct Hd, Hd'; lia).
    f_equal. apply list_eq. intros j.
    pose proof (dims_row t r c i Hd Hi) as Hl.
    pose proof (dims_row t' r c i Hd' Hi) as Hl'.
    destruct (decide (j < c)) as [Hj | Hj].
    + rewrite (rd_lt (rd t i) j), (rd_lt (rd t' i) j) by lia.
      f_equal. apply Hget.
    + by rewrite !lookup_ge_None_2 by lia.
  - destruct Hd as [Hr _], Hd' as [Hr' _].
    by rewrite !lookup_ge_None_2 by lia.
Qed.

(** X2.  The bit matrix does not depend on the order in which the threads
    of the launch run: any schedule that runs the threads of the grid, in
    any order, leaves every word as the launch does. *)
Theorem mask_schedule_independent
    (boxes : list (list Q)) (order : list nat)
    (iou_threshold supression_param : Q)
    (ts : list (nat * nat * nat)) (i b : nat) :
  (forall t, t ∈ ts <-> t ∈ grid (divup (length boxes) FLAG_WIDTH)) ->
  let st0 :=
    mkIouState
      match Supression with
      | HARD => zeros2 0%Q 0 0
      | _ => zeros2 0%Q (length boxes) (length boxes)
      end
      (zeros2 0%Z (length boxes) (divup (length boxes) FLAG_WIDTH)) in
  get2 (mask_ (foldl (fun st '(y, x, t) =>
                        nms2d_iou_kernel boxes order iou_threshold
                          supression_param y x t st) st0 ts)) i b
  = get2 (mask_ (pairwise_phase boxes order iou_threshold supression_param))
      i b.
Proof.
  intros Hts st0.
  assert (dims (mask_ st0) (length boxes) (divup (length boxes) 64)) as Hd.
  { subst st0. cbn [mask_]. apply dims_zeros2. }
  destruct (decide (i < length boxes /\ b < divup (length boxes) 64))
    as [[Hi Hb] | Hout].
  - by apply launch_mask_any_schedule.
  - rewrite (get2_outside _ _ _ _ _
               (pairwise_mask_dims boxes order iou_threshold supression_param))
      by lia.
    apply (get2_outside _ (length boxes) (divup (length boxes) 64)); [| lia].
    by apply launch_mask_dims.
Qed.

(** *** Words and positions *)

(** X7.  The signed words behave as unsigned ones under the bit
    operations: setting bit [k] of an [int64_t] word through [1ULL << k],
    the sign bit included, gives an [int64_t] value whose bit [n] is the
    old bit [n], or set when [n = k]. *)
Theorem int64_word_acts_as_uint64 (w : bitvec_t) (k n : nat) :
  k < 64 -> n < 64 ->
  (- 2 ^ 63 <= set_bit w k < 2 ^ 63)%Z
  /\ test_bit (set_bit w k) n = test_bit w n || bool_decide (n = k).
Proof.
  intros Hk Hn. split; [apply to_i64_range | by apply test_bit_set_bit].
Qed.

(** X8.  A sorted position and its (word, bit) address determine each
    other: [(i >> FLAG_BITS, i & (FLAG_WIDTH - 1))] is put back together by
    [(j << FLAG_BITS) + k], and a pair [(j, k)] with [k < FLAG_WIDTH] is
    recovered from [(j << FLAG_BITS) + k]. *)
Theorem position_address_round_trip (i j k : nat) :
  (Nat.shiftl (Nat.shiftr i FLAG_BITS) FLAG_BITS + Nat.land i (FLAG_WIDTH - 1) = i
   /\ Nat.land i (FLAG_WIDTH - 1) < FLAG_WIDTH)
  /\ (k < FLAG_WIDTH ->
      Nat.shiftr (Nat.shiftl j FLAG_BITS + k) FLAG_BITS = j
      /\ Nat.land (Nat.shiftl j FLAG_BITS + k) (FLAG_WIDTH - 1) = k).
Proof.
  change (Nat.shiftr i FLAG_BITS) with (block_of i).
  change (Nat.land i (FLAG_WIDTH - 1)) with (lane_of i).
  change (Nat.shiftr (Nat.shiftl j FLAG_BITS + k) FLAG_BITS)
    with (block_of (Nat.shiftl j FLAG_BITS + k)).
  change (Nat.land (Nat.shiftl j FLAG_BITS + k) (FLAG_WIDTH - 1))
    with (lane_of (Nat.shiftl j FLAG_BITS + k)).
  rewrite !shiftl_mul, !block_of_div, !lane_of_mod, FLAG_WIDTH_eq.
  destruct (divmod_64 i) as [Hi Hlt]. split; [lia |].
  intros Hk. split.
  - symmetry. apply (Nat.div_unique _ 64 j k); lia.
  - symmetry. apply (Nat.mod_unique _ 64 j k); lia.
Qed.

(** *** The collecting kernel *)

(** Steps that leave the score array as it is. *)
Lemma collect_block_hard_scores mask coeffs thr i st j :
  Supression = HARD ->
  scores_ (collect_block mask coeffs thr i st j) = scores_ st.
Proof. intros Hhard. unfold collect_block. by rewrite Hhard. Qed.

Lemma collect_bit_no_bit_scores mask coeffs thr i j st k :
  test_bit (get2 mask i j) k = false ->
  scores_ (collect_bit mask coeffs thr i j st k) = scores_ st.
Proof. intros Hm. unfold collect_bit. by rewrite Hm. Qed.

Lemma collect_upto_same_scores order mask coeffs thr n st :
  (forall s i j, scores_ (collect_block mask coeffs thr i s j) = scores_ s) ->
  scores_ (collect_upto order mask coeffs thr n st) = scores_ st.
Proof.
  intros Hblock. unfold collect_upto.
  apply (foldl_rel (fun s s' => scores_ s' = scores_ s) _ (fun _ => True));
    [done | congruence | | by apply Forall_forall].
  intros s i _.
  destruct (collect_row_cases order mask coeffs thr (size1 mask) s i)
    as [[_ ->] | [_ ->]]; [done |].
  apply (foldl_rel (fun s s' => scores_ s' = scores_ s) _ (fun _ => True));
    [done | congruence | | by apply Forall_forall].
  intros s' j _. apply Hblock.
Qed.

(** X5.  In HARD mode the second kernel never writes the score tensor:
    whatever its inputs, the scores it is given are the scores it leaves. *)
Theorem hard_leaves_scores
    (order : list nat) (mask : list (list bitvec_t)) (coeffs : list (list Q))
    (remv : list bitvec_t) (scores : list Q) (score_threshold : Q)
    (suppressed : list bool) :
  Supression = HARD ->
  scores_ (nms_collect_kernel order mask coeffs remv scores score_threshold
             suppressed)
  = scores.
Proof.
  intros Hhard. unfold nms_collect_kernel.
  rewrite collect_upto_same_scores; [done |].
  intros s i j. by apply collect_block_hard_scores.
Qed.

(** Once the bit of position [q] is set, entry [q] of the score array is
    left alone. *)
Definition frozen (st st' : CollectState) : Prop :=
  forall q, acc_bit (remv_ st) q = true ->
    acc_bit (remv_ st') q = true /\ rd (scores_ st') q = rd (scores_ st) q.

Lemma frozen_refl st : frozen st st.
Proof. by intros q Hq. Qed.

Lemma frozen_trans s1 s2 s3 : frozen s1 s2 -> frozen s2 s3 -> frozen s1 s3.
Proof.
  intros H12 H23 q Hq. destruct (H12 q Hq) as [Hq2 He2].
  destruct (H23 q Hq2) as [Hq3 He3]. split; [done | congruence].
Qed.

Lemma collect_bit_frozen mask coeffs thr i j st k :
  k < 64 -> frozen st (collect_bit mask coeffs thr i j st k).
Proof.
  intros Hk q Hq. split.
  - destruct (divmod_64 q) as [_ Hlt].
    apply (rr_keep _ _ _ _ (collect_bit_rel mask coeffs thr i j st k Hk));
      done.
  - unfold collect_bit.
    destruct (test_bit (get2 mask i j) k); [| done].
    destruct (test_bit (rd (remv_ st) j) k) eqn:Hr; [done |].
    assert (Nat.shiftl j FLAG_BITS + k <> q) as Hne.
    { assert ((j * 64 + k) / 64 = j) as Hd.
      { symmetry. apply (Nat.div_unique _ 64 j k); lia. }
      assert ((j * 64 + k) mod 64 = k) as Hm.
      { symmetry. apply (Nat.mod_unique _ 64 j k); lia. }
      rewrite shiftl_mul. intros <-. unfold acc_bit in Hq.
      rewrite Hd, Hm in Hq. congruence. }
    destruct (scalar_lt _ thr); cbn [scores_]; rewrite rd_insert;
      by rewrite bool_decide_eq_false_2 by (intros [? _]; done).
Qed.

Lemma collect_block_frozen mask coeffs thr i st j :
  frozen st (collect_block mask coeffs thr i st j).
Proof.
  pose proof (collect_block_rel mask coeffs thr i st j) as Hrel.
  unfold collect_block in *. destruct Supression.
  - intros q Hq. destruct (divmod_64 q) as [_ Hlt].
    split; [by apply (rr_keep _ _ _ _ Hrel) | done].
  - apply (foldl_rel _ _ (fun k => k < 64));
      [apply frozen_refl | apply frozen_trans | |].
    + intros s k Hk. by apply collect_bit_frozen.
    + apply Forall_forall. intros k Hk. apply elem_of_seq in Hk.
      rewrite FLAG_WIDTH_eq in Hk. lia.
  - apply (foldl_rel _ _ (fun k => k < 64));
      [apply frozen_refl | apply frozen_trans | |].
    + intros s k Hk. by apply collect_bit_frozen.
    + apply Forall_forall. intros k Hk. apply elem_of_seq in Hk.
      rewrite FLAG_WIDTH_eq in Hk. lia.
Qed.

Lemma collect_row_frozen order mask coeffs thr nb st i :
  frozen st (collect_row order mask coeffs thr nb st i).
Proof.
  destruct (collect_row_cases order mask coeffs thr nb st i)
    as [[_ ->] | [_ ->]]; [by intros q Hq |].
  apply (foldl_rel _ _ (fun _ => True));
    [apply frozen_refl | apply frozen_trans | | by apply Forall_forall].
  intros s j _. apply collect_block_frozen.
Qed.

(** X10.  A suppressed position is skipped by the decay: once the
    accumulator bit of position [q] is set, entry [q] of the score array
    keeps its value through every later round, whatever the inputs. *)
Theorem suppressed_score_frozen
    (order : list nat) (mask : list (list bitvec_t)) (coeffs : list (list Q))
    (score_threshold : Q) (st : CollectState) (n n' q : nat) :
  n <= n' ->
  acc_bit (remv_ (collect_upto order mask coeffs score_threshold n st)) q
    = true ->
  rd (scores_ (collect_upto order mask coeffs score_threshold n' st)) q
  = rd (scores_ (collect_upto order mask coeffs score_threshold n st)) q.
Proof.
  intros Hle Hq.
  assert (frozen (collect_upto order mask coeffs score_threshold n st)
            (collect_upto order mask coeffs score_threshold n' st)) as Hf.
  { clear Hq. induction Hle as [| n' Hle IH]; [apply frozen_refl |].
    rewrite collect_upto_S.
    eapply frozen_trans; [exact IH | apply collect_row_frozen]. }
  by destruct (Hf q Hq).
Qed.

(** *** The two phases together *)

(** X9.  The rounds after round [q] never touch the accumulator bit of
    position [q]: in every mode, what the pass has decided for a position
    when it reaches it is what it ends with. *)
Theorem decision_final_at_own_round
    (boxes : list (list Q)) (order : list nat) (scores : list Q)
    (iou_threshold score_threshold supression_param : Q) (q n : nat) :
  q <= n ->
  acc_bit (remv_ (reduction_upto boxes order scores iou_threshold
                    score_threshold supression_param n)) q
  = acc_bit (remv_ (reduction_upto boxes order scores iou_threshold
                      score_threshold supression_param q)) q.
Proof. apply reduction_stable. Qed.

(** In HARD mode a position is suppressed exactly when an earlier
    position that is not suppressed overlaps it. *)
Lemma hard_acc_bit_iff boxes order scores thr sthr p q :
  Supression = HARD ->
  let R := reduction_upto boxes order scores thr sthr p (length boxes) in
  acc_bit (remv_ R) q = true
  <-> exists i, i < q /\ acc_bit (remv_ R) i = false
        /\ overlap boxes order thr i q = true.
Proof.
  intros Hhard R. subst R. split.
  - intros Hq. apply reduction_origin in Hq as (i & Hi & Hov & Hfree).
    assert (i < q < length boxes) as Hr.
    { unfold overlap in Hov. apply andb_true_iff in Hov as [Hr _].
      by apply bool_decide_eq_true in Hr. }
    exists i. split; [lia |]. split; [| done].
    by rewrite reduction_stable by lia.
  - intros (i & Hi & Hfree & Hov).
    assert (i < q < length boxes) as Hr.
    { unfold overlap in Hov. apply andb_true_iff in Hov as [Hr _].
      by apply bool_decide_eq_true in Hr. }
    rewrite reduction_stable in Hfree by lia.
    rewrite reduction_stable by lia.
    by apply (reduction_hard boxes order scores thr sthr p i q).
Qed.

(** X3.  HARD mode is greedy suppression: the shape at sorted position [q]
    is flagged exactly when some shape at an earlier sorted position is
    not flagged and has an IoU with it above the threshold. *)
Theorem hard_flag_greedy
    (boxes : list (list Q)) (scores : list Q)
    (iou_threshold score_threshold supression_param : Q) (q : nat) :
  Supression = HARD ->
  length boxes = length scores ->
  q < length (boxes_masked boxes scores score_threshold) ->
  let bm := boxes_masked boxes scores score_threshold in
  let order := argsort (scores_masked scores score_threshold) in
  let F :=
    nms2d_cuda boxes scores iou_threshold score_threshold supression_param in
  rd F (rd order q) = true
  <-> exists i, i < q /\ rd F (rd order i) = false
        /\ (iou_threshold
            < iou Iou (sorted_box bm order i) (sorted_box bm order q))%Q.
Proof.
  intros Hhard Hlen Hq bm order F. subst F. unfold nms2d_cuda.
  rewrite run_reduction. fold bm order.
  pose proof (masked_order boxes scores score_threshold Hlen) as Ho.
  fold bm order in Ho. fold bm in Hq.
  rewrite reduction_flag_at by done.
  rewrite hard_acc_bit_iff by done. split.
  - intros (i & Hi & Hfree & Hov). exists i. split; [done |].
    rewrite reduction_flag_at by (done || lia). split; [done |].
    unfold overlap in Hov. apply andb_true_iff in Hov as [_ Hlt].
    by apply scalar_lt_spec.
  - intros (i & Hi & Hfree & Hlt). exists i. split; [done |].
    rewrite reduction_flag_at in Hfree by (done || lia). split; [done |].
    unfold overlap. rewrite bool_decide_eq_true_2 by lia.
    by apply scalar_lt_spec.
Qed.

(** X12.  In HARD mode whether position [q] is suppressed depends only on
    the overlaps among the positions up to [q]: two runs whose overlaps
    agree on every pair ending at or before [q] decide [q] alike, whatever
    comes after. *)
Theorem hard_decision_ignores_later_shapes
    (boxes boxes' : list (list Q)) (order order' : list nat)
    (scores scores' : list Q)
    (iou_threshold score_threshold supression_param : Q) (q : nat) :
  Supression = HARD ->
  (forall i j, j <= q ->
     overlap boxes order iou_threshold i j
     = overlap boxes' order' iou_threshold i j) ->
  acc_bit (remv_ (reduction_upto boxes order scores iou_threshold
                    score_threshold supression_param (length boxes))) q
  = acc_bit (remv_ (reduction_upto boxes' order' scores' iou_threshold
                      score_threshold supression_param (length boxes'))) q.
Proof.
  intros Hhard. induction q as [q IH] using lt_wf_ind. intros Hsame.
  assert (forall i, i < q ->
            acc_bit (remv_ (reduction_upto boxes order scores iou_threshold
                              score_threshold supression_param
                              (length boxes))) i
            = acc_bit (remv_ (reduction_upto boxes' order' scores'
                                iou_threshold score_threshold supression_param
                                (length boxes'))) i) as Hprev.
  { intros i Hi. apply IH; [done |]. intros i' j Hj. apply Hsame. lia. }
  apply eq_true_iff_eq. rewrite !hard_acc_bit_iff by done.
  split; intros (i & Hi & Hfree & Hov); exists i; (split; [done |]).
  - by rewrite <- Hprev, <- Hsame by (done || lia).
  - by rewrite Hprev, Hsame by (done || lia).
Qed.

(** X4.  The shape with the highest score is never suppressed: in every
    mode, the flag of the shape at sorted position 0 is false. *)
Theorem top_shape_never_suppressed
    (boxes : list (list Q)) (scores : list Q)
    (iou_threshold score_threshold supression_param : Q) :
  length boxes = length scores ->
  0 < length (boxes_masked boxes scores score_threshold) ->
  rd (nms2d_cuda boxes scores iou_threshold score_threshold supression_param)
     (rd (argsort (scores_masked scores score_threshold)) 0)
  = false.
Proof.
  intros Hlen Hpos. unfold nms2d_cuda. rewrite run_reduction.
  rewrite reduction_flag_at by (by apply masked_order || done).
  rewrite reduction_stable by lia.
  unfold reduction_upto, collect_upto, acc_bit. cbn [seq foldl remv_].
  apply zeros1_bit.
Qed.

(** X6.  When no shape overlaps a later one beyond the threshold, the
    reduction changes nothing, in any mode: the scores are left as they
    were, no accumulator bit is set and every flag is false. *)
Theorem no_overlap_changes_nothing
    (boxes : list (list Q)) (scores : list Q)
    (iou_threshold score_threshold supression_param : Q) :
  (forall i j,
     i < j < length (boxes_masked boxes scores score_threshold) ->
     (iou Iou
        (sorted_box (boxes_masked boxes scores score_threshold)
           (argsort (scores_masked scores score_threshold)) i)
        (sorted_box (boxes_masked boxes scores score_threshold)
           (argsort (scores_masked scores score_threshold)) j)
      <= iou_threshold)%Q) ->
  let R :=
    nms2d_cuda_run boxes scores iou_threshold score_threshold
      supression_param in
  scores_ R = scores_masked scores score_threshold
  /\ suppressed_ R
     = replicate (length (boxes_masked boxes scores score_threshold)) false
  /\ forall q, acc_bit (remv_ R) q = false.
Proof.
  intros Hno R. subst R. rewrite run_reduction.
  set (bm := boxes_masked boxes scores score_threshold) in *.
  set (sm := scores_masked scores score_threshold) in *.
  set (order := argsort sm) in *.
  assert (forall i j, overlap bm order iou_threshold i j = false) as Hov.
  { intros i j. unfold overlap. case_bool_decide as Hr; [| done].
    apply scalar_lt_false. by apply Hno. }
  split; [| split].
  - unfold reduction_upto. rewrite collect_upto_same_scores; [done |].
    intros s i j. unfold collect_block. destruct Supression; [done | |];
      (apply (foldl_rel (fun s s' => scores_ s' = scores_ s) _
                (fun k => k < 64)); [done | congruence | |]);
      try (intros s' k Hk; apply collect_bit_no_bit_scores;
           by rewrite pairwise_mask_bit by done);
      apply Forall_forall; intros k Hk; apply elem_of_seq in Hk;
      rewrite FLAG_WIDTH_eq in Hk; lia.
  - by apply reduction_no_overlap.
  - intros q. apply not_true_is_false. intros Hq.
    apply reduction_origin in Hq as (i & _ & Hq & _). by rewrite Hov in Hq.
Qed.

Lemma index_none {A} (t : list A) (scores : list Q) sthr :
  (forall s, s ∈ scores -> (s <= sthr)%Q) ->
  index t (score_mask scores sthr) = [].
Proof.
  unfold score_mask. revert t.
  induction scores as [| s scores IH]; intros t Hall; [by destruct t |].
  destruct t as [| x t]; [done |]. simpl.
  assert (scalar_lt sthr s = false) as ->.
  { apply scalar_lt_false, Hall, list_elem_of_here. }
  apply IH. intros s' Hs'. by apply Hall, list_elem_of_further.
Qed.

(** X11.  When no score exceeds [score_threshold], the empty input
    included, there is no survivor and [nms2d_cuda] returns the empty flag
    vector. *)
Theorem no_survivor_empty_output
    (boxes : list (list Q)) (scores : list Q)
    (iou_threshold score_threshold supression_param : Q) :
  (forall s, s ∈ scores -> (s <= score_threshold)%Q) ->
  nms2d_cuda boxes scores iou_threshold score_threshold supression_param = [].
Proof.
  intros Hall. apply length_zero_iff_nil.
  unfold nms2d_cuda. rewrite run_reduction.
  destruct (reduction_lengths (boxes_masked boxes scores score_threshold)
              (argsort (scores_masked scores score_threshold))
              (scores_masked scores score_threshold)
              iou_threshold score_threshold supression_param
              (length (boxes_masked boxes scores score_threshold)))
    as (_ & _ & ->).
  unfold boxes_masked. by rewrite index_none.
Qed.

End Kernels.

(** X14.  The bit matrix is the same in every suppression mode: it depends
    on the shapes, their order and the IoU threshold only, not on the mode,
    on [supression_param], or on the decay functions. *)
Theorem mask_same_in_every_mode
    (iou : IouType -> list Q -> list Q -> Q) (pow pow' : Q -> Q -> Q)
    (exp exp' : Q -> Q) (Iou : IouType) (Supression Supression' : SupressionType)
    (boxes : list (list Q)) (order : list nat)
    (iou_threshold supression_param supression_param' : Q) :
  mask_ (pairwise_phase iou pow exp Iou Supression boxes order iou_threshold
           supression_param)
  = mask_ (pairwise_phase iou pow' exp' Iou Supression' boxes order
             iou_threshold supression_param').
Proof.
  apply (dims_get2_ext _ _ (length boxes) (divup (length boxes) 64));
    [apply pairwise_mask_dims | apply pairwise_mask_dims |].
  intros i j. by rewrite !pairwise_mask_word.
Qed.

(** ** Concrete runs *)

Module Example.

(** An instance of the IoU capability: axis-aligned boxes given by two
    opposite corners [x1; y1; x2; y2]. *)
Definition aabox_iou (a b : list Q) : Q :=
  match a, b with
  | [ax1; ay1; ax2; ay2], [bx1; by1; bx2; by2] =>
      let iw := Qmax 0 (Qmin ax2 bx2 - Qmax ax1 bx1) in
      let ih := Qmax 0 (Qmin ay2 by2 - Qmax ay1 by1) in
      let inter := iw * ih in
      let union :=
        (ax2 - ax1) * (ay2 - ay1) + (bx2 - bx1) * (by2 - by1) - inter in
      inter / union
  | _, _ => 0
  end%Q.

Definition iou (_ : IouType) : list Q -> list Q -> Q := aabox_iou.

(** [pow] at integer exponents, and the first terms of the series of
    [exp]; the runs below are in HARD and LINEAR mode with exponent 1. *)
Definition pow (x p : Q) : Q := Qpower x (Qnum p).
Definition exp (x : Q) : Q := (1 + x + x * x / 2)%Q.

Definition A : list Q := [0; 0; 10; 10]%Q.
Definition B : list Q := [0; 0; 10; 8]%Q.
Definition C : list Q := [20; 20; 30; 30]%Q.

Lemma aabox_iou_sym a b : (aabox_iou a b == aabox_iou b a)%Q.
Proof.
  destruct a as [| ax1 [| ay1 [| ax2 [| ay2 [| ? ?]]]]];
    destruct b as [| bx1 [| by1 [| bx2 [| by2 [| ? ?]]]]]; try reflexivity.
  unfold aabox_iou.
  rewrite (Q.min_comm bx2 ax2), (Q.max_comm bx1 ax1),
    (Q.min_comm by2 ay2), (Q.max_comm by1 ay1).
  apply Qdiv_comp; [reflexivity | ring].
Qed.

Lemma iou_A_B : (iou BOX A B == 4 # 5)%Q.
Proof. reflexivity. Qed.

Lemma iou_A_C : (iou BOX A C == 0)%Q.
Proof. reflexivity. Qed.

(** Scenario 1 of the specification: A (0.9), B (0.5) with IoU(A, B) = 0.8,
    C (0.8) apart from both; HARD mode at threshold 0.5 keeps A and C. *)
Lemma scenario_hard :
  nms2d_cuda iou pow exp BOX HARD [A; B; C] [9 # 10; 5 # 10; 8 # 10]%Q
    (1 # 2) 0 1
  = [false; true; false].
Proof. reflexivity. Qed.

End Example.

(** C1: the code against the specification.  Two shapes with IoU 0.8 in
    LINEAR mode with exponent 1: the specification has the cell (0, 1)
    hold the decay [1 - 0.8 = 0.2] and the other cells hold [1.0].  The
    matrix is allocated by [torch::zeros], and multiplying into a zero
    leaves it zero. *)
Theorem coefficients_multiply_into_zero :
  let st :=
    pairwise_phase Example.iou Example.pow Example.exp BOX LINEAR
      [Example.A; Example.B] [0; 1] (1 # 2) 1 in
  (1 - Example.pow (Example.iou BOX Example.A Example.B) 1 == 1 # 5)%Q
  /\ (get2 (iou_coeffs_ st) 0 1 == 0)%Q
  /\ (get2 (iou_coeffs_ st) 1 0 == 0)%Q
  /\ (get2 (iou_coeffs_ st) 0 0 == 0)%Q.
Proof. vm_compute. repeat split. Qed.

(** The write of the first kernel takes the column inside the tile, not
    the sorted position: with 66 equal shapes and a matrix of ones, thread
    [(0, 1, 0)], whose pairs are [(0, 64)] and [(0, 65)], writes the cells
    [(0, 0)] and [(0, 1)]; thread [(0, 0, 0)] writes the cell [(0, 1)]
    as well. *)
Lemma iou_kernel_writes_tile_local_column :
  let boxes := replicate 66 Example.A in
  let ones := mkIouState (zeros2 1%Q 66 66) (zeros2 0%Z 66 2) in
  let st :=
    nms2d_iou_kernel Example.iou Example.pow Example.exp BOX LINEAR
      boxes (seq 0 66) (1 # 2) 1 0 1 0 ones in
  let st' :=
    nms2d_iou_kernel Example.iou Example.pow Example.exp BOX LINEAR
      boxes (seq 0 66) (1 # 2) 1 0 0 0 ones in
  (get2 (iou_coeffs_ st) 0 0 == 0)%Q /\ (get2 (iou_coeffs_ st) 0 1 == 0)%Q
  /\ (get2 (iou_coeffs_ st) 0 64 == 1)%Q /\ (get2 (iou_coeffs_ st) 0 65 == 1)%Q
  /\ get2 (mask_ st) 0 1 = 3%Z
  /\ (get2 (iou_coeffs_ st') 0 1 == 0)%Q.
Proof. vm_compute. repeat split. Qed.

(** C2: the code against the specification.  LINEAR mode, two survivors
    stored as [B] (score 0.6) and [A] (score 1), so that sorted position 0
    is entry 1 and sorted position 1 is entry 0.  The specification has
    the score of the shape at sorted position 1 (entry 0) decayed and its
    bit set when that score falls below 0.5.  The code decays entry 1,
    the score of the shape at sorted position 0, and sets the bit of
    position 1 while the score of the shape there is still 0.6. *)
Theorem collect_decays_score_at_sorted_index :
  let sm := scores_masked [3 # 5; 1]%Q (1 # 2) in
  let R :=
    nms2d_cuda_run Example.iou Example.pow Example.exp BOX LINEAR
      [Example.B; Example.A] [3 # 5; 1]%Q (1 # 2) (1 # 2) 1 in
  argsort sm = [1; 0]
  /\ (rd (scores_ R) 0 == 3 # 5)%Q
  /\ (rd (scores_ R) 1 == 0)%Q
  /\ acc_bit (remv_ R) 1 = true
  /\ scalar_lt (rd (scores_ R) (rd (argsort sm) 1)) (1 # 2) = false.
Proof. vm_compute. repeat split. Qed.

(** The same defect with the coefficients the specification intends
    ([1 - IoU] at (0, 1), ones elsewhere), given to the kernel directly:
    the score it multiplies is entry 1, not entry [order[1] = 0]. *)
Lemma collect_kernel_decays_wrong_entry :
  let st :=
    nms_collect_kernel LINEAR [1; 0] [[2%Z]; [0%Z]]
      [[1; 1 # 5]; [1; 1]]%Q [0%Z] [3 # 5; 1]%Q (1 # 2) [false; false] in
  (rd (scores_ st) 0 == 3 # 5)%Q /\ (rd (scores_ st) 1 == 1 # 5)%Q.
Proof. vm_compute. repeat split. Qed.

(** C3 as stated fails.  HARD mode, survivors stored as [B] (0.5) and
    [A] (0.9): sorted position 1 is suppressed, yet entry 1 of the output
    is false; sorted position 0 is kept, yet entry 0 is true. *)
Lemma flags_not_keyed_by_sorted_position :
  let R :=
    nms2d_cuda_run Example.iou Example.pow Example.exp BOX HARD
      [Example.B; Example.A] [1 # 2; 9 # 10]%Q (1 # 2) 0 1 in
  argsort (scores_masked [1 # 2; 9 # 10]%Q 0) = [1; 0]
  /\ acc_bit (remv_ R) 1 = true /\ rd (suppressed_ R) 1 = false
  /\ acc_bit (remv_ R) 0 = false /\ rd (suppressed_ R) 0 = true.
Proof. vm_compute. repeat split. Qed.

Lemma flags_keyed_through_order_witness :
  rd (nms2d_cuda Example.iou Example.pow Example.exp BOX HARD
        [Example.B; Example.A] [1 # 2; 9 # 10]%Q (1 # 2) 0 1)
     (rd (argsort (scores_masked [1 # 2; 9 # 10]%Q 0)) 1)
  = acc_bit
      (remv_ (nms2d_cuda_run Example.iou Example.pow Example.exp BOX HARD
                [Example.B; Example.A] [1 # 2; 9 # 10]%Q (1 # 2) 0 1)) 1.
Proof.
  apply (flags_keyed_through_order Example.iou Example.pow Example.exp BOX HARD
           [Example.B; Example.A] [1 # 2; 9 # 10]%Q (1 # 2) 0 1 1).
  - reflexivity.
  - vm_compute. lia.
Defined.

Lemma prefilter_order_and_output_length_witness :
  let boxes := [Example.B; Example.A; Example.C] in
  let scores := [1 # 10; 9 # 10; 8 # 10]%Q in
  let F :=
    nms2d_cuda Example.iou Example.pow Example.exp BOX HARD
      boxes scores (1 # 2) (1 # 2) 1 in
  length boxes = length scores
  /\ zip (boxes_masked boxes scores (1 # 2)) (scores_masked scores (1 # 2))
     = [(Example.A, 9 # 10); (Example.C, 8 # 10)]%Q
  /\ nms2d_cuda_run Example.iou Example.pow Example.exp BOX HARD
       boxes scores (1 # 2) (1 # 2) 1
     = nms2d_cuda_templated Example.iou Example.pow Example.exp BOX HARD
         [Example.A; Example.C] [0; 1] [9 # 10; 8 # 10]%Q (1 # 2) (1 # 2) 1
         [false; false]
  /\ F = [false; false]
  /\ length F = 2.
Proof.
  intros boxes scores F.
  pose proof (prefilter_order_and_output_length Example.iou Example.pow
                Example.exp BOX HARD boxes scores (1 # 2) (1 # 2) 1 eq_refl)
    as (Hfilter & _ & _ & Hrun & _ & _ & _ & _ & Hlen).
  split; [reflexivity |]. split; [exact Hfilter |].
  split; [exact Hrun |]. split; [by vm_compute | exact Hlen].
Defined.

Lemma overlap_bits_strictly_upper_witness :
  let boxes := [Example.A; Example.B; Example.C] in
  let order := [0; 2; 1] in
  let mask :=
    mask_ (pairwise_phase Example.iou Example.pow Example.exp BOX HARD
             boxes order (1 # 2) 1) in
  test_bit (get2 mask 0 0) 2 = true
  /\ 0 < 0 * 64 + 2
  /\ (1 # 2 < Example.iou BOX (sorted_box boxes order 0)
                (sorted_box boxes order (0 * 64 + 2)))%Q.
Proof.
  split; [reflexivity |].
  apply (proj1 (overlap_bits_strictly_upper Example.iou Example.pow
                  Example.exp BOX HARD [Example.A; Example.B; Example.C]
                  [0; 2; 1] (1 # 2) 1 0 0 2)).
  reflexivity.
Defined.

Lemma suppression_never_cleared_witness :
  let st := mkCollectState [0%Z] [9 # 10; 5 # 10; 8 # 10]%Q
              [false; false; false] in
  1 <= 3
  /\ never_cleared
       (collect_upto HARD [0; 2; 1] [[4%Z]; [0%Z]; [0%Z]] [] 0 1 st)
       (collect_upto HARD [0; 2; 1] [[4%Z]; [0%Z]; [0%Z]] [] 0 3 st).
Proof.
  split; [lia |].
  apply (suppression_never_cleared HARD [0; 2; 1] [[4%Z]; [0%Z]; [0%Z]] [] 0
           (mkCollectState [0%Z] [9 # 10; 5 # 10; 8 # 10]%Q
              [false; false; false]) 1 3).
  lia.
Defined.

Lemma isolated_shape_not_suppressed_witness :
  nms2d_cuda Example.iou Example.pow Example.exp BOX HARD
    [Example.A; Example.B; Example.C] [9 # 10; 5 # 10; 8 # 10]%Q (1 # 2) 0 1
  !! 2 = Some false.
Proof.
  apply (isolated_shape_not_suppressed Example.iou Example.pow Example.exp
           BOX HARD [Example.A; Example.B; Example.C]
           [9 # 10; 5 # 10; 8 # 10]%Q (1 # 2) 0 1 2).
  - reflexivity.
  - vm_compute. lia.
  - intros m' Hm' Hne.
    destruct m' as [| [| [| m']]]; [by vm_compute | by vm_compute | lia |].
    vm_compute in Hm'. lia.
Defined.


(** C9 as stated fails.  LINEAR mode with a negative threshold and negative
    scores: the overlapped score goes from -0.5 to 0. *)
Lemma decay_raises_negative_score :
  let R :=
    nms2d_cuda_run Example.iou Example.pow Example.exp BOX LINEAR
      [Example.A; Example.B] [-1 # 4; -1 # 2]%Q (1 # 2) (-1) 1 in
  (rd (scores_masked [-1 # 4; -1 # 2]%Q (-1)) 1 == -1 # 2)%Q
  /\ (rd (scores_ R) 1 == 0)%Q
  /\ (rd (scores_masked [-1 # 4; -1 # 2]%Q (-1)) 1 < rd (scores_ R) 1)%Q.
Proof. vm_compute. repeat split. Qed.

(** The second kernel multiplies by whatever coefficient it is handed:
    with a coefficient of 2 the overlapped score goes from 0.6 to 1.2, so
    the bound on the scores needs the factors of the first kernel to lie
    in the unit interval. *)
Lemma collect_kernel_raises_score_by_factor_above_one :
  let R :=
    nms_collect_kernel LINEAR [0; 1] [[2%Z]; [0%Z]] [[1; 2]; [1; 1]]%Q
      [0%Z] [1; 3 # 5]%Q (1 # 2) [false; false] in
  (rd (scores_ R) 1 == 6 # 5)%Q
  /\ (rd [1; 3 # 5]%Q 1 < rd (scores_ R) 1)%Q.
Proof. vm_compute. repeat split. Qed.

Lemma decay_never_raises_score_witness :
  let boxes := [Example.A; Example.B] in
  let scores := [1; 3 # 5]%Q in
  unit_decay Example.iou Example.pow Example.exp BOX LINEAR
    (boxes_masked boxes scores (1 # 2)) (argsort (scores_masked scores (1 # 2)))
    1
  /\ (0 <= rd (scores_masked scores (1 # 2)) 1)%Q
  /\ (rd (scores_ (nms2d_cuda_run Example.iou Example.pow Example.exp BOX
                     LINEAR boxes scores (1 # 2) (1 # 2) 1)) 1
      <= rd (scores_masked scores (1 # 2)) 1)%Q.
Proof.
  intros boxes scores.
  assert (unit_decay Example.iou Example.pow Example.exp BOX LINEAR
            (boxes_masked boxes scores (1 # 2))
            (argsort (scores_masked scores (1 # 2))) 1) as Hd.
  { intros i j Hij.
    change (length (boxes_masked boxes scores (1 # 2))) with 2 in Hij.
    assert (i = 0 /\ j = 1) as [-> ->] by lia.
    by vm_compute. }
  split; [exact Hd |]. split; [by vm_compute |].
  apply (decay_never_raises_score Example.iou Example.pow Example.exp BOX
           LINEAR boxes scores (1 # 2) (1 # 2) 1 1); [exact Hd | by vm_compute].
Defined.

Lemma caller_tensors_unchanged_witness :
  let bx := [Example.A; Example.B] in
  let sc := [1; 3 # 5]%Q in
  let h := [TScalar2 bx; TScalar1 sc] in
  exists (suppressed : nat) (h' : list tensor),
    nms2d_cuda_store Example.iou Example.pow Example.exp BOX LINEAR 0 1
      (1 # 2) (1 # 2) 1 h = Some (suppressed, h')
    /\ h' !! 0 = Some (TScalar2 bx)
    /\ h' !! 1 = Some (TScalar1 sc).
Proof.
  destruct (caller_tensors_unchanged Example.iou Example.pow Example.exp BOX
              LINEAR 0 1 (1 # 2) (1 # 2) 1
              [TScalar2 [Example.A; Example.B]; TScalar1 [1; 3 # 5]%Q]
              [Example.A; Example.B] [1; 3 # 5]%Q eq_refl eq_refl)
    as (suppressed & h' & Hrun & Hb & Hs & _).
  exists suppressed, h'. split; [exact Hrun |]. split; [exact Hb | exact Hs].
Defined.

(** ** Concrete runs of the further properties *)

Lemma overlap_bit_exact_witness :
  let boxes := [Example.A; Example.B; Example.C] in
  let order := [0; 2; 1] in
  2 < 64
  /\ (test_bit
        (get2 (mask_ (pairwise_phase Example.iou Example.pow Example.exp BOX
                        HARD boxes order (1 # 2) 1)) 0 0) 2 = true
      <-> 0 < 0 * 64 + 2 < length boxes
          /\ (1 # 2 < Example.iou BOX (sorted_box boxes order 0)
                        (sorted_box boxes order (0 * 64 + 2)))%Q).
Proof.
  split; [lia |].
  apply (overlap_bit_exact Example.iou Example.pow Example.exp BOX HARD
           [Example.A; Example.B; Example.C] [0; 2; 1] (1 # 2) 1 0 0 2).
  lia.
Defined.

Lemma mask_schedule_independent_witness :
  get2 (mask_ (foldl (fun st '(y, x, t) =>
                        nms2d_iou_kernel Example.iou Example.pow Example.exp
                          BOX LINEAR [Example.A; Example.B] [0; 1] (1 # 2) 1
                          y x t st)
                 (mkIouState (zeros2 0%Q 2 2) (zeros2 0%Z 2 1))
                 (reverse (grid 1)))) 0 0
  = get2 (mask_ (pairwise_phase Example.iou Example.pow Example.exp BOX LINEAR
                   [Example.A; Example.B] [0; 1] (1 # 2) 1)) 0 0.
Proof.
  apply (mask_schedule_independent Example.iou Example.pow Example.exp BOX
           LINEAR [Example.A; Example.B] [0; 1] (1 # 2) 1 (reverse (grid 1))
           0 0).
  intros t. apply elem_of_reverse.
Defined.

Lemma int64_word_acts_as_uint64_witness :
  (- 2 ^ 63 <= set_bit 5%Z 63%nat < 2 ^ 63)%Z
  /\ test_bit (set_bit 5%Z 63) 63 = test_bit 5%Z 63 || bool_decide (63 = 63).
Proof. apply (int64_word_acts_as_uint64 5%Z 63 63); lia. Defined.

Lemma position_address_round_trip_witness :
  Nat.shiftr (Nat.shiftl 2 FLAG_BITS + 5) FLAG_BITS = 2
  /\ Nat.land (Nat.shiftl 2 FLAG_BITS + 5) (FLAG_WIDTH - 1) = 5.
Proof.
  apply (proj2 (position_address_round_trip 133 2 5)).
  vm_compute. lia.
Defined.

Lemma hard_leaves_scores_witness :
  scores_ (nms_collect_kernel HARD [0; 2; 1] [[4%Z]; [0%Z]; [0%Z]] [] [0%Z]
             [9 # 10; 5 # 10; 8 # 10]%Q 0 [false; false; false])
  = [9 # 10; 5 # 10; 8 # 10]%Q.
Proof.
  apply (hard_leaves_scores HARD [0; 2; 1] [[4%Z]; [0%Z]; [0%Z]] [] [0%Z]
           [9 # 10; 5 # 10; 8 # 10]%Q 0 [false; false; false]).
  reflexivity.
Defined.

Lemma suppressed_score_frozen_witness :
  let st := mkCollectState [0%Z] [3 # 5; 1 # 1]%Q [false; false] in
  acc_bit (remv_ (collect_upto LINEAR [0; 1] [[2%Z]; [0%Z]]
                    [[1; 1 # 5]; [1; 1]]%Q (1 # 2) 1 st)) 1 = true
  /\ rd (scores_ (collect_upto LINEAR [0; 1] [[2%Z]; [0%Z]]
                    [[1; 1 # 5]; [1; 1]]%Q (1 # 2) 2 st)) 1
     = rd (scores_ (collect_upto LINEAR [0; 1] [[2%Z]; [0%Z]]
                      [[1; 1 # 5]; [1; 1]]%Q (1 # 2) 1 st)) 1.
Proof.
  split; [reflexivity |].
  apply (suppressed_score_frozen LINEAR [0; 1] [[2%Z]; [0%Z]]
           [[1; 1 # 5]; [1; 1]]%Q (1 # 2)
           (mkCollectState [0%Z] [3 # 5; 1 # 1]%Q [false; false]) 1 2 1).
  - lia.
  - reflexivity.
Defined.

Lemma decision_final_at_own_round_witness :
  acc_bit (remv_ (reduction_upto Example.iou Example.pow Example.exp BOX HARD
                    [Example.A; Example.B; Example.C] [0; 2; 1]
                    [9 # 10; 5 # 10; 8 # 10]%Q (1 # 2) 0 1 3)) 2
  = acc_bit (remv_ (reduction_upto Example.iou Example.pow Example.exp BOX HARD
                      [Example.A; Example.B; Example.C] [0; 2; 1]
                      [9 # 10; 5 # 10; 8 # 10]%Q (1 # 2) 0 1 2)) 2.
Proof.
  apply (decision_final_at_own_round Example.iou Example.pow Example.exp BOX
           HARD [Example.A; Example.B; Example.C] [0; 2; 1]
           [9 # 10; 5 # 10; 8 # 10]%Q (1 # 2) 0 1 2 3).
  lia.
Defined.

Lemma hard_flag_greedy_witness :
  let boxes := [Example.A; Example.B; Example.C] in
  let scores := [9 # 10; 5 # 10; 8 # 10]%Q in
  let F :=
    nms2d_cuda Example.iou Example.pow Example.exp BOX HARD boxes scores
      (1 # 2) 0 1 in
  rd F (rd (argsort (scores_masked scores 0)) 2) = true
  /\ (rd F (rd (argsort (scores_masked scores 0)) 2) = true
      <-> exists i, i < 2
            /\ rd F (rd (argsort (scores_masked scores 0)) i) = false
            /\ (1 # 2 < Example.iou BOX
                          (sorted_box (boxes_masked boxes scores 0)
                             (argsort (scores_masked scores 0)) i)
                          (sorted_box (boxes_masked boxes scores 0)
                             (argsort (scores_masked scores 0)) 2%nat))%Q).
Proof.
  split; [reflexivity |].
  apply (hard_flag_greedy Example.iou Example.pow Example.exp BOX HARD
           [Example.A; Example.B; Example.C] [9 # 10; 5 # 10; 8 # 10]%Q
           (1 # 2) 0 1 2).
  - reflexivity.
  - reflexivity.
  - vm_compute. lia.
Defined.

Lemma hard_decision_ignores_later_shapes_witness :
  acc_bit (remv_ (reduction_upto Example.iou Example.pow Example.exp BOX HARD
                    [Example.A; Example.B; Example.C] [0; 2; 1]
                    [9 # 10; 5 # 10; 8 # 10]%Q (1 # 2) 0 1 3)) 1
  = acc_bit (remv_ (reduction_upto Example.iou Example.pow Example.exp BOX HARD
                      [Example.A; Example.C] [0; 1] [9 # 10; 8 # 10]%Q
                      (1 # 2) 0 1 2)) 1.
Proof.
  apply (hard_decision_ignores_later_shapes Example.iou Example.pow
           Example.exp BOX HARD [Example.A; Example.B; Example.C]
           [Example.A; Example.C] [0; 2; 1] [0; 1]
           [9 # 10; 5 # 10; 8 # 10]%Q [9 # 10; 8 # 10]%Q (1 # 2) 0 1 1).
  - reflexivity.
  - intros i j Hj. unfold overlap. cbn [length].
    destruct j as [| [| j]]; [| | lia].
    + by rewrite !bool_decide_eq_false_2 by lia.
    + destruct i as [| i]; [reflexivity |].
      by rewrite !bool_decide_eq_false_2 by lia.
Defined.

Lemma top_shape_never_suppressed_witness :
  rd (nms2d_cuda Example.iou Example.pow Example.exp BOX LINEAR
        [Example.B; Example.A] [3 # 5; 1]%Q (1 # 2) (1 # 2) 1)
     (rd (argsort (scores_masked [3 # 5; 1]%Q (1 # 2))) 0)
  = false.
Proof.
  apply (top_shape_never_suppressed Example.iou Example.pow Example.exp BOX
           LINEAR [Example.B; Example.A] [3 # 5; 1]%Q (1 # 2) (1 # 2) 1).
  - reflexivity.
  - vm_compute. lia.
Defined.

Lemma no_overlap_changes_nothing_witness :
  let R :=
    nms2d_cuda_run Example.iou Example.pow Example.exp BOX LINEAR
      [Example.A; Example.C] [9 # 10; 8 # 10]%Q (1 # 2) 0 1 in
  scores_ R = scores_masked [9 # 10; 8 # 10]%Q 0
  /\ suppressed_ R
     = replicate
         (length (boxes_masked [Example.A; Example.C] [9 # 10; 8 # 10]%Q 0))
         false
  /\ forall q, acc_bit (remv_ R) q = false.
Proof.
  apply (no_overlap_changes_nothing Example.iou Example.pow Example.exp BOX
           LINEAR [Example.A; Example.C] [9 # 10; 8 # 10]%Q (1 # 2) 0 1).
  intros i j Hij.
  assert (length (boxes_masked [Example.A; Example.C] [9 # 10; 8 # 10]%Q 0) = 2)
    as Hl by reflexivity.
  rewrite Hl in Hij.
  assert (i = 0) as -> by lia. assert (j = 1) as -> by lia.
  by vm_compute.
Defined.

Lemma no_survivor_empty_output_witness :
  nms2d_cuda Example.iou Example.pow Example.exp BOX HARD
    [Example.A; Example.B] [1 # 10; 1 # 2]%Q (1 # 2) (1 # 2) 1
  = [].
Proof.
  apply (no_survivor_empty_output Example.iou Example.pow Example.exp BOX HARD
           [Example.A; Example.B] [1 # 10; 1 # 2]%Q (1 # 2) (1 # 2) 1).
  intros s Hs. rewrite !elem_of_cons in Hs.
  destruct Hs as [-> | [-> | Hs]]; [by vm_compute | by vm_compute |].
  by apply not_elem_of_nil in Hs.
Defined.

Lemma overlap_bits_antitone_in_threshold_witness :
  let boxes := [Example.A; Example.B; Example.C] in
  let order := [0; 2; 1] in
  (1 # 4 <= 1 # 2)%Q
  /\ test_bit
       (get2 (mask_ (pairwise_phase Example.iou Example.pow Example.exp BOX
                       HARD boxes order (1 # 2) 1)) 0 0) 2 = true
  /\ test_bit
       (get2 (mask_ (pairwise_phase Example.iou Example.pow Example.exp BOX
                       HARD boxes order (1 # 4) 1)) 0 0) 2 = true.
Proof.
  split; [by vm_compute |]. split; [reflexivity |].
  apply (overlap_bits_antitone_in_threshold Example.iou Example.pow
           Example.exp BOX HARD [Example.A; Example.B; Example.C] [0; 2; 1]
           (1 # 4) (1 # 2) 1 0 0 2).
  - by vm_compute.
  - reflexivity.
Defined.
